(** * GitHub Projects MCP server: issue typing and issue hierarchy

    A shallow embedding of the issue-relationship and type-inference code of
    [src/index.ts] (class [GitHubProjectsServer]): [detectIssueType],
    [createIssue], [linkIssues], [setParent], [addSubIssue] and
    [getIssueHierarchy], together with the properties the specification
    states about them.

    Conventions of the embedding.
    - A JavaScript string is a sequence of UTF-16 code units.  The embedding
      covers the texts whose code units are all below 256, which is exactly
      what Rocq's [string] (a sequence of 8-bit [ascii]) holds.  On that
      range [toLowerCase], [trimEnd], the class [\d], the dot and the
      multi-line anchor [^] are modelled exactly.
    - Issue numbers are natural numbers ([N]); they are printed in decimal by
      template literals and read back by [parseInt] on a run of digits.
    - The GitHub GraphQL service is the external collaborator.  It is modelled
      as a deterministic store ([World]); every tool is a computation in a
      state-and-exception monad over that store.
    - Tool results are kept as typed records; the final [JSON.stringify] is
      not modelled. *)

From Stdlib Require Import Ascii String DecimalString DecimalN.
From stdpp Require Import gmap strings list sorting.

Local Open Scope N_scope.

(** ** JavaScript string primitives *)

(** [s.startsWith(p)]; also the test "the literal [p] matches at the head of
    [s]" used by the regular expressions below. *)
Fixpoint startsWith (p s : string) : bool :=
  match p, s with
  | EmptyString, _ => true
  | String _ _, EmptyString => false
  | String a p', String b s' => if decide (a = b) then startsWith p' s' else false
  end.

(** [s.includes(k)] *)
Fixpoint includes (s k : string) : bool :=
  startsWith k s ||
  match s with
  | EmptyString => false
  | String _ s' => includes s' k
  end.

Definition code (c : ascii) : N := N_of_ascii c.

(** Lower-casing of one code unit below 256: A-Z and the Latin-1 capitals
    U+00C0..U+00DE (without the multiplication sign U+00D7) move up by 32. *)
Definition lowerChar (c : ascii) : ascii :=
  let n := code c in
  if ((65 <=? n) && (n <=? 90)) || ((192 <=? n) && (n <=? 222) && negb (n =? 215))
  then ascii_of_N (n + 32)
  else c.

(** [s.toLowerCase()] *)
Fixpoint toLowerCase (s : string) : string :=
  match s with
  | EmptyString => EmptyString
  | String c s' => String (lowerChar c) (toLowerCase s')
  end.

(** White space and line terminators as [trimEnd] sees them (code units below
    256): TAB, LF, VT, FF, CR, SPACE and NBSP. *)
Definition isWhiteSpace (c : ascii) : bool :=
  let n := code c in
  ((9 <=? n) && (n <=? 13)) || (n =? 32) || (n =? 160).

(** [s.trimEnd()] *)
Fixpoint trimEnd (s : string) : string :=
  match s with
  | EmptyString => EmptyString
  | String c s' =>
      match trimEnd s' with
      | EmptyString => if isWhiteSpace c then EmptyString else String c EmptyString
      | t => String c t
      end
  end.

(** Line terminators: the dot of a regular expression does not match them and
    the multi-line [^] matches right after one. *)
Definition isLineTerminator (c : ascii) : bool :=
  (code c =? 10) || (code c =? 13).

(** The class [\d]. *)
Definition isDigit (c : ascii) : bool :=
  (48 <=? code c) && (code c <=? 57).

(** Template-literal printing of a number: [`${n}`]. *)
Definition numberToString (n : N) : string :=
  NilZero.string_of_uint (N.to_uint n).

(** The greedy group [(\d+)] at the head of [s]: the longest run of digits,
    and what follows it. *)
Fixpoint spanDigits (s : string) : string * string :=
  match s with
  | EmptyString => (EmptyString, EmptyString)
  | String c s' =>
      if isDigit c then let '(d, r) := spanDigits s' in (String c d, r)
      else (EmptyString, s)
  end.

(** [parseInt] on a non-empty run of digits. *)
Definition parseInt (digits : string) : N :=
  match NilEmpty.uint_of_string digits with
  | Some d => N.of_uint d
  | None => 0
  end.

(** ** Type classifier *)

Inductive IssueType :=
  | epic | feature | bug | task | story | documentation.

#[global] Instance IssueType_eq_dec : EqDecision IssueType.
Proof. solve_decision. Defined.

(** The string each tag stands for in the source. *)
Definition typeName (t : IssueType) : string :=
  match t with
  | epic => "epic" | feature => "feature" | bug => "bug"
  | task => "task" | story => "story" | documentation => "documentation"
  end.

(** [`${title} ${body || ''}`.toLowerCase()] *)
Definition combinedText (title : string) (body : option string) : string :=
  toLowerCase (title +:+ " " +:+ default "" body).

(** [detectIssueType(title, body?)]: [None] is the source's [null]. *)
Definition detectIssueType (title : string) (body : option string)
  : option IssueType :=
  let combinedText := combinedText title body in
  if includes combinedText "epic" ||
     includes combinedText "initiative" ||
     includes combinedText "milestone" ||
     includes combinedText "parent"
  then Some epic
  else if includes combinedText "feature" ||
     includes combinedText "enhancement" ||
     includes combinedText "new functionality" ||
     includes combinedText "add support" ||
     includes combinedText "implement"
  then Some feature
  else if includes combinedText "bug" ||
     includes combinedText "fix" ||
     includes combinedText "error" ||
     includes combinedText "issue" ||
     includes combinedText "broken" ||
     includes combinedText "crash"
  then Some bug
  else if includes combinedText "task" ||
     includes combinedText "chore" ||
     includes combinedText "refactor" ||
     includes combinedText "update" ||
     includes combinedText "clean"
  then Some task
  else if includes combinedText "story" ||
     includes combinedText "user story" ||
     includes combinedText "as a user" ||
     includes combinedText "i want"
  then Some story
  else if includes combinedText "documentation" ||
     includes combinedText "docs" ||
     includes combinedText "readme" ||
     includes combinedText "guide"
  then Some documentation
  else None.

(** The keyword sets and the order of the tests, as data, for stating the
    tie-break policy. *)
Definition keywords (t : IssueType) : list string :=
  match t with
  | epic => ["epic"; "initiative"; "milestone"; "parent"]
  | feature => ["feature"; "enhancement"; "new functionality"; "add support"; "implement"]
  | bug => ["bug"; "fix"; "error"; "issue"; "broken"; "crash"]
  | task => ["task"; "chore"; "refactor"; "update"; "clean"]
  | story => ["story"; "user story"; "as a user"; "i want"]
  | documentation => ["documentation"; "docs"; "readme"; "guide"]
  end.

Definition testOrder : list IssueType :=
  [epic; feature; bug; task; story; documentation].

(** Position of a category in the order of the tests. *)
Definition testRank (t : IssueType) : nat :=
  match t with
  | epic => 0 | feature => 1 | bug => 2 | task => 3 | story => 4
  | documentation => 5
  end.

(** The text holds one of the keywords of category [t]. *)
Definition hasKeyword (text : string) (t : IssueType) : bool :=
  existsb (includes text) (keywords t).

(** ** Regular expressions of the hierarchy manager *)

(** [stripPrefix p s] is what follows the literal [p] when [s] starts with it. *)
Fixpoint stripPrefix (p s : string) : option string :=
  match p, s with
  | EmptyString, _ => Some s
  | String _ _, EmptyString => None
  | String a p', String b s' => if decide (a = b) then stripPrefix p' s' else None
  end.

(** A greedy run of the dot: the longest prefix without a line terminator,
    and what follows it. *)
Fixpoint spanDot (s : string) : string * string :=
  match s with
  | EmptyString => (EmptyString, EmptyString)
  | String c s' =>
      if isLineTerminator c then (EmptyString, s)
      else let '(t, r) := spanDot s' in (String c t, r)
  end.

(** [/\*\*Parent:\*\* #(\d+)/] tried at the head of [s]: the number read by
    [parseInt(match[1])]. *)
Definition parentMarkerAt (s : string) : option N :=
  match stripPrefix "**Parent:** #" s with
  | Some r =>
      match spanDigits r with
      | (EmptyString, _) => None
      | (d, _) => Some (parseInt d)
      end
  | None => None
  end.

(** [body.match(/\*\*Parent:\*\* #(\d+)/)]: the leftmost match. *)
Fixpoint parentMatch (s : string) : option N :=
  match parentMarkerAt s with
  | Some n => Some n
  | None =>
      match s with
      | EmptyString => None
      | String _ s' => parentMatch s'
      end
  end.

(** [/Tracks #(\d+)/] tried at the head of [s]: the number and the length of
    the match. *)
Definition tracksAt (s : string) : option (N * nat) :=
  match stripPrefix "Tracks #" s with
  | Some r =>
      match spanDigits r with
      | (EmptyString, _) => None
      | (d, _) => Some (parseInt d, String.length "Tracks #" + String.length d)%nat
      end
  | None => None
  end.

(** The loop [while ((match = childPattern.exec(text)) !== null)] with the
    global pattern [/Tracks #(\d+)/g]: every match from left to right, each
    search resuming where the previous match ended ([skip] counts the code
    units of the current match still to be passed over). *)
Fixpoint execTracks (skip : nat) (s : string) : list N :=
  match s with
  | EmptyString => []
  | String _ s' =>
      match skip with
      | S k => execTracks k s'
      | O =>
          match tracksAt s with
          | Some (n, len) => n :: execTracks (len - 1) s'
          | None => execTracks 0 s'
          end
      end
  end.

(** The line feed, [\n]. *)
Definition LF : string := String "010" EmptyString.

(** The literal part of [/\n\n---\n\*\*Parent:\*\*.+/]. *)
Definition parentBlockHead : string :=
  LF +:+ LF +:+ "---" +:+ LF +:+ "**Parent:**".

(** [/\n\n---\n\*\*Parent:\*\*.+/] tried at the head of [s]: the matched text
    and what follows it. *)
Definition parentBlockAt (s : string) : option (string * string) :=
  match stripPrefix parentBlockHead s with
  | Some r =>
      match spanDot r with
      | (EmptyString, _) => None
      | (t, after) => Some (parentBlockHead +:+ t, after)
      end
  | None => None
  end.

(** Expansion of a replacement string for a pattern without capture groups:
    [$$], [$&], [$`] and [$'] are special, any other [$] stands for itself. *)
Fixpoint getSubstitution (matched before after repl : string) : string :=
  match repl with
  | EmptyString => EmptyString
  | String a t =>
      if decide (a = "$"%char) then
        match t with
        | String c r =>
            if decide (c = "$"%char) then String "$" (getSubstitution matched before after r)
            else if decide (c = "&"%char) then matched +:+ getSubstitution matched before after r
            else if decide (c = "`"%char) then before +:+ getSubstitution matched before after r
            else if decide (c = "'"%char) then after +:+ getSubstitution matched before after r
            else String a (getSubstitution matched before after t)
        | EmptyString => String a EmptyString
        end
      else String a (getSubstitution matched before after t)
  end.

(** [s.replace(/\n\n---\n\*\*Parent:\*\*.+/, repl)]: the leftmost match is
    replaced, a text without match is returned as it is.  [before] is the
    text already passed over. *)
Fixpoint replaceParentBlock (repl before s : string) : string :=
  match parentBlockAt s with
  | Some (m, after) => getSubstitution m before after repl +:+ after
  | None =>
      match s with
      | EmptyString => EmptyString
      | String c s' => String c (replaceParentBlock repl (before +:+ String c EmptyString) s')
      end
  end.

(** One item of the task list, [- \[[ x]\] #\d+.*\n], tried at the head of
    [s]: the text of the line with its line feed, and what follows it. *)
Definition itemLine (s : string) : option (string * string) :=
  match stripPrefix "- [" s with
  | Some (String c s1) =>
      if bool_decide (c = " "%char) || bool_decide (c = "x"%char) then
        match stripPrefix "] #" s1 with
        | Some s2 =>
            match spanDigits s2 with
            | (EmptyString, _) => None
            | (d, s3) =>
                match spanDot s3 with
                | (t, String nl rest) =>
                    if decide (nl = "010"%char)
                    then Some ("- [" +:+ String c "] #" +:+ d +:+ t +:+ String nl EmptyString, rest)
                    else None
                | _ => None
                end
            end
        | None => None
        end
      else None
  | _ => None
  end.

(** The greedy repetition [(- \[[ x]\] #\d+.*\n)+] without its lower bound:
    the lines matched, at most [fuel] of them. *)
Fixpoint itemLines (fuel : nat) (s : string) : string :=
  match fuel with
  | O => EmptyString
  | S fuel' =>
      match itemLine s with
      | Some (l, rest) => l +:+ itemLines fuel' rest
      | None => EmptyString
      end
  end.

(** [(- \[[ x]\] #\d+.*\n)+] at the head of [s]; a text of [n] code units has
    fewer than [n] lines. *)
Definition taskBlock (s : string) : option string :=
  match itemLines (String.length s) s with
  | EmptyString => None
  | m => Some m
  end.

(** [/(^|\n)(- \[[ x]\] #\d+.*\n)+/m] tried at the head of [s]: the matched
    text.  [lineStart] tells whether [^] holds here (start of the text, or
    right after a line terminator). *)
Definition taskListAt (lineStart : bool) (s : string) : option string :=
  match (if lineStart then taskBlock s else None) with
  | Some m => Some m
  | None =>
      match s with
      | String c s' =>
          if decide (c = "010"%char) then String c <$> taskBlock s' else None
      | EmptyString => None
      end
  end.

(** [taskListRegex.test(s)] from [lastIndex = 0]. *)
Fixpoint testTaskListFrom (lineStart : bool) (s : string) : bool :=
  match taskListAt lineStart s with
  | Some _ => true
  | None =>
      match s with
      | EmptyString => false
      | String c s' => testTaskListFrom (isLineTerminator c) s'
      end
  end.

Definition testTaskList (s : string) : bool := testTaskListFrom true s.

(** [s.replace(taskListRegex, match => match.trimEnd() + '\n' + item + '\n')]
    with the global pattern: every match, from left to right, is replaced. *)
Fixpoint replaceTaskListsFrom (item : string) (skip : nat) (lineStart : bool)
    (s : string) : string :=
  match s with
  | EmptyString => EmptyString
  | String c s' =>
      match skip with
      | S k => replaceTaskListsFrom item k (isLineTerminator c) s'
      | O =>
          match taskListAt lineStart s with
          | Some m =>
              trimEnd m +:+ LF +:+ item +:+ LF +:+
              replaceTaskListsFrom item (String.length m - 1) (isLineTerminator c) s'
          | None => String c (replaceTaskListsFrom item 0 (isLineTerminator c) s')
          end
      end
  end.

Definition replaceTaskLists (item s : string) : string :=
  replaceTaskListsFrom item 0 true s.

(** ** The external collaborator: a GitHub store *)

Inductive IssueState := OPEN | CLOSED.

(** An issue is identified by owner, repository and number.  Its global node
    id is opaque to the server, which only passes it back to mutations; the
    store uses the identifying triple itself as the node id, so an issue that
    exists always has a (truthy) id. *)
Abbreviation IssueKey := (string * string * N)%type.

Record Issue := mkIssue {
  issueTitle : string;
  issueBody : string;
  issueState : IssueState;
  issueLabels : list string;
  issueAssignees : list string;
  issueMilestone : option N;
  (** bodies of the comments in the order of the [comments] connection,
      oldest first: [comments(first: n)] is a prefix, a new comment goes last *)
  issueComments : list string;
}.

(** What the server needs of a repository to create issues: its label names,
    its milestone numbers and the number the next issue gets.  Label, user and
    milestone ids are opaque as well and stand for the name, login or number
    they identify. *)
Record Repository := mkRepository {
  repoLabels : list string;
  repoMilestones : list N;
  repoNextNumber : N;
}.

Record World := mkWorld {
  issues : gmap IssueKey Issue;
  repositories : gmap (string * string) Repository;
  users : list string;
  (** native parent/sub-issue links, when the service has the capability *)
  subIssues : list (IssueKey * IssueKey);
  (** [Some msg]: the native sub-issue mutation fails with message [msg] *)
  nativeSubIssueFailure : option string;
  (** lines written by [console.error] *)
  stderr : list string;
}.

Definition setIssues (f : gmap IssueKey Issue → gmap IssueKey Issue) (w : World) : World :=
  mkWorld (f (issues w)) (repositories w) (users w) (subIssues w)
          (nativeSubIssueFailure w) (stderr w).

Definition withBody (b : string) (i : Issue) : Issue :=
  mkIssue (issueTitle i) b (issueState i) (issueLabels i) (issueAssignees i)
          (issueMilestone i) (issueComments i).

Definition withComment (c : string) (i : Issue) : Issue :=
  mkIssue (issueTitle i) (issueBody i) (issueState i) (issueLabels i)
          (issueAssignees i) (issueMilestone i) (issueComments i ++ [c]).

(** ** Errors and the monad of tool calls *)

Inductive ErrorCode := InvalidRequest | MethodNotFound | InternalError.

Definition errorCodeText (c : ErrorCode) : string :=
  match c with
  | InvalidRequest => "-32600"
  | MethodNotFound => "-32601"
  | InternalError => "-32603"
  end.

(** What a tool call can throw: an [McpError] of the server, or the error of
    a failed GraphQL request. *)
Inductive JsError :=
  | McpError (code : ErrorCode) (message : string)
  | GraphqlError (message : string).

(** [error.message]; the constructor of [McpError] in the MCP SDK composes
    its message from the code and the text it is given. *)
Definition errorMessage (e : JsError) : string :=
  match e with
  | McpError c m => "MCP error " +:+ errorCodeText c +:+ ": " +:+ m
  | GraphqlError m => m
  end.

(** An [async] method: from a store to a thrown error or a result, and the
    store it leaves. *)
Definition Tool (A : Type) : Type := World → (JsError + A) * World.

Definition ret {A} (a : A) : Tool A := λ w, (inr a, w).

Definition throw {A} (e : JsError) : Tool A := λ w, (inl e, w).

Definition bind {A B} (c : Tool A) (k : A → Tool B) : Tool B :=
  λ w, match c w with
       | (inl e, w') => (inl e, w')
       | (inr a, w') => k a w'
       end.

(** [try { c } catch (e) { handler(e) }] *)
Definition tryCatch {A} (c : Tool A) (handler : JsError → Tool A) : Tool A :=
  λ w, match c w with
       | (inl e, w') => handler e w'
       | (inr a, w') => (inr a, w')
       end.

Notation "'let!' x ':=' c 'in' k" := (bind c (λ x, k))
  (at level 10, x pattern, c at level 100, k at level 200).
Notation "c ';;' k" := (bind c (λ _, k))
  (at level 100, k at level 200, right associativity).

(** *** Requests to the collaborator *)

(** [repository(owner, name) { issue(number) {...} }]: the issue's key (its
    id and number) and its fields, or a null [issue] when the number does not
    resolve, which is what the checks of the server are written for. *)
Definition queryIssue (owner repo : string) (number : N) : Tool (option (IssueKey * Issue)) :=
  λ w, (inr (pair (owner, repo, number) <$> issues w !! (owner, repo, number)), w).

(** [addComment(input: {subjectId, body})] *)
Definition addComment (issueId : IssueKey) (body : string) : Tool unit :=
  λ w, match issues w !! issueId with
       | Some i => (inr (), setIssues (insert issueId (withComment body i)) w)
       | None => (inl (GraphqlError "Could not resolve to a node with the global id"), w)
       end.

(** [updateIssue(input: {id, body})] *)
Definition updateIssueBody (issueId : IssueKey) (body : string) : Tool unit :=
  λ w, match issues w !! issueId with
       | Some i => (inr (), setIssues (insert issueId (withBody body i)) w)
       | None => (inl (GraphqlError "Could not resolve to a node with the global id"), w)
       end.

(** [addSubIssue(input: {issueId, subIssueId})], the beta mutation. *)
Definition addSubIssueMutation (parentId childId : IssueKey) : Tool (IssueKey * IssueKey) :=
  λ w, match nativeSubIssueFailure w with
       | Some msg => (inl (GraphqlError msg), w)
       | None =>
           (inr (parentId, childId),
            mkWorld (issues w) (repositories w) (users w)
                    (subIssues w ++ [(parentId, childId)])
                    (nativeSubIssueFailure w) (stderr w))
       end.

(** [console.error(...)] *)
Definition consoleError (line : string) : Tool unit :=
  λ w, (inr (),
        mkWorld (issues w) (repositories w) (users w) (subIssues w)
                (nativeSubIssueFailure w) (stderr w ++ [line])).

(** ** Results of the tools *)

Inductive LinkType := tracks | blocks | related.

Record IssueRef := mkIssueRef { refNumber : N; refTitle : string }.

(** One participant of a hierarchy view. *)
Record HierarchyNode := mkNode {
  nodeNumber : N;
  nodeTitle : string;
  nodeState : IssueState;
  nodeLabels : list string;
  nodeType : option IssueType;
}.

Record Hierarchy := mkHierarchy {
  current : HierarchyNode;
  parents : list HierarchyNode;
  children : list HierarchyNode;
}.

(** The issue returned by [createIssue], with the two fields the link step
    may add. *)
Record CreatedIssue := mkCreatedIssue {
  createdNumber : N;
  createdTitle : string;
  createdBody : string;
  createdState : IssueState;
  createdLabels : list string;
  createdAssignees : list string;
  createdMilestone : option N;
  parentIssue : option (N * LinkType);
  linkError : option string;
}.

(** The payload a tool serialises into its text content. *)
Inductive ToolResult :=
  | LinkResult (success : bool) (parent child : IssueRef) (relationship : LinkType)
  | NativeSubIssueResult (success : bool) (parent child : IssueRef)
      (result : IssueKey * IssueKey)
  | HierarchyResult (hierarchy : Hierarchy)
  | CreatedIssueResult (issue : CreatedIssue).

(** ** Hierarchy manager, write path *)

Record LinkArgs := mkLinkArgs {
  linkOwner : string;
  linkRepo : string;
  parentIssueNumber : N;
  childIssueNumber : N;
  (** [None]: the argument is absent and defaults to ['tracks'] *)
  linkType : option LinkType;
}.

(** The child's body with its parent reference: the block is replaced when the
    body holds the literal [**Parent:**], appended otherwise. *)
Definition updatedChildBody (parentIssueNumber : N) (parentIssueTitle childIssueBody : string)
  : string :=
  let parentRef :=
    LF +:+ LF +:+ "---" +:+ LF +:+ "**Parent:** #" +:+ numberToString parentIssueNumber
       +:+ " - " +:+ parentIssueTitle in
  if includes childIssueBody "**Parent:**"
  then replaceParentBlock parentRef "" childIssueBody
  else childIssueBody +:+ parentRef.

(** The parent's body with the child in its task list. *)
Definition updatedParentBody (childIssueNumber : N) (childIssueTitle parentIssueBody : string)
  : string :=
  let childTaskItem :=
    "- [ ] #" +:+ numberToString childIssueNumber +:+ " " +:+ childIssueTitle in
  let hasTaskList := testTaskList parentIssueBody in
  if hasTaskList then
    if negb (includes parentIssueBody ("#" +:+ numberToString childIssueNumber))
    then replaceTaskLists childTaskItem parentIssueBody
    else parentIssueBody
  else
    let tasksSection := "### Tasks" +:+ LF +:+ childTaskItem +:+ LF +:+ LF in
    tasksSection +:+ parentIssueBody.

(** [linkIssues(args)] *)
Definition linkIssues (args : LinkArgs) : Tool ToolResult :=
  let owner := toLowerCase (linkOwner args) in
  let repo := linkRepo args in
  let parentIssueNumber := parentIssueNumber args in
  let childIssueNumber := childIssueNumber args in
  let linkType := default tracks (linkType args) in
  let parentComment :=
    match linkType with
    | tracks => "Tracks #" +:+ numberToString childIssueNumber
    | blocks => "Blocks #" +:+ numberToString childIssueNumber
    | related => "Related to #" +:+ numberToString childIssueNumber
    end in
  let! parentResult := queryIssue owner repo parentIssueNumber in
  match parentResult with
  | None => throw (McpError InvalidRequest "Parent issue not found")
  | Some (parentIssueId, parentIssue) =>
  let parentIssueTitle := issueTitle parentIssue in
  let parentIssueBody := issueBody parentIssue in
  let! childResult := queryIssue owner repo childIssueNumber in
  match childResult with
  | None => throw (McpError InvalidRequest "Child issue not found")
  | Some (childIssueId, childIssue) =>
  let childIssueTitle := issueTitle childIssue in
  let childIssueBody := issueBody childIssue in
  addComment parentIssueId parentComment ;;
  let childComment :=
    match linkType with
    | tracks => "Tracked by #" +:+ numberToString parentIssueNumber
    | blocks => "Blocked by #" +:+ numberToString parentIssueNumber
    | related => "Related to #" +:+ numberToString parentIssueNumber
    end in
  addComment childIssueId childComment ;;
  match linkType with
  | tracks =>
      updateIssueBody childIssueId
        (updatedChildBody parentIssueNumber parentIssueTitle childIssueBody) ;;
      updateIssueBody parentIssueId
        (updatedParentBody childIssueNumber childIssueTitle parentIssueBody)
  | _ => ret ()
  end ;;
  ret (LinkResult true
         (mkIssueRef parentIssueNumber parentIssueTitle)
         (mkIssueRef childIssueNumber childIssueTitle)
         linkType)
  end
  end.

Record SetParentArgs := mkSetParentArgs {
  setParentOwner : string;
  setParentRepo : string;
  setParentIssueNumber : N;
  setParentParentIssueNumber : N;
}.

(** [setParent(args)] *)
Definition setParent (args : SetParentArgs) : Tool ToolResult :=
  let owner := toLowerCase (setParentOwner args) in
  linkIssues (mkLinkArgs owner (setParentRepo args)
                (setParentParentIssueNumber args) (setParentIssueNumber args)
                (Some tracks)).

(** ** Native sub-issue attempt *)

Record SubIssueArgs := mkSubIssueArgs {
  subOwner : string;
  subRepo : string;
  subParentIssueNumber : N;
  subChildIssueNumber : N;
}.

(** The query of [addSubIssue]: both issues in one request. *)
Definition queryIssuePair (owner repo : string) (parentNumber childNumber : N)
  : Tool (option (IssueKey * Issue) * option (IssueKey * Issue)) :=
  let! parentIssue := queryIssue owner repo parentNumber in
  let! childIssue := queryIssue owner repo childNumber in
  ret (parentIssue, childIssue).

(** [addSubIssue(args)] *)
Definition addSubIssue (args : SubIssueArgs) : Tool ToolResult :=
  let owner := toLowerCase (subOwner args) in
  let repo := subRepo args in
  let parentIssueNumber := subParentIssueNumber args in
  let childIssueNumber := subChildIssueNumber args in
  let! result := queryIssuePair owner repo parentIssueNumber childIssueNumber in
  match result with
  | (Some (parentId, parentIssue), Some (childId, childIssue)) =>
      let parentTitle := issueTitle parentIssue in
      let childTitle := issueTitle childIssue in
      tryCatch
        (let! mutationResult := addSubIssueMutation parentId childId in
         ret (NativeSubIssueResult true
                (mkIssueRef parentIssueNumber parentTitle)
                (mkIssueRef childIssueNumber childTitle)
                mutationResult))
        (λ error,
           consoleError ("Beta API failed: " +:+ errorMessage error) ;;
           if includes (errorMessage error) "Field 'addSubIssue' doesn't exist" ||
              includes (errorMessage error) "Unknown field"
           then linkIssues (mkLinkArgs owner repo parentIssueNumber childIssueNumber
                              (Some tracks))
           else throw error)
  | (None, _) => throw (McpError InvalidRequest "Parent issue not found")
  | (Some _, None) => throw (McpError InvalidRequest "Child issue not found")
  end.

(** ** Hierarchy manager, read path *)

(** [Array.prototype.sort(compare)]: a stable sort (ECMAScript 2019), here
    by insertion; [compare a b <= 0] keeps [a] in front of [b]. *)
Fixpoint insertSorted {A} (compare : A → A → Z) (x : A) (l : list A) : list A :=
  match l with
  | [] => [x]
  | y :: l' => if (compare x y <=? 0)%Z then x :: l else y :: insertSorted compare x l'
  end.

Definition arraySort {A} (compare : A → A → Z) (l : list A) : list A :=
  foldr (insertSorted compare) [] l.

(** [typeOrder[type] ?? 6] *)
Definition typeOrder (type : option IssueType) : Z :=
  match type with
  | Some epic => 0
  | Some feature => 1
  | Some story => 2
  | Some task => 3
  | Some bug => 4
  | Some documentation => 5
  | None => 6
  end.

(** The comparator given to [hierarchy.children.sort]. *)
Definition compareChildren (a b : HierarchyNode) : Z :=
  let aOrder := typeOrder (nodeType a) in
  let bOrder := typeOrder (nodeType b) in
  (aOrder - bOrder)%Z.

Definition sortChildren (children : list HierarchyNode) : list HierarchyNode :=
  arraySort compareChildren children.

(** [childNumbers.add(n)] on a [Set<number>], which iterates in insertion
    order. *)
Definition setAdd (n : N) (s : list N) : list N :=
  if decide (n ∈ s) then s else s ++ [n].

(** The numbers collected from the comments, in order of first appearance. *)
Definition childNumbersOf (comments : list string) : list N :=
  foldl (λ childNumbers comment,
           foldl (λ childNumbers n, setAdd n childNumbers) childNumbers
                 (execTracks 0 comment))
        [] comments.

(** The node pushed for a fetched parent or child: labels are fetched with
    [first: 5] and the type is detected from the title alone. *)
Definition relatedNode (number : N) (i : Issue) : HierarchyNode :=
  mkNode number (issueTitle i) (issueState i) (take 5 (issueLabels i))
         (detectIssueType (issueTitle i) (Some "")).

(** The loop over [childNumbers]: each child that resolves is pushed, a failed
    fetch is absorbed. *)
Fixpoint fetchChildren (owner repo : string) (childNumbers : list N)
    (children : list HierarchyNode) : Tool (list HierarchyNode) :=
  match childNumbers with
  | [] => ret children
  | childNumber :: rest =>
      let! children' :=
        tryCatch
          (let! childResult := queryIssue owner repo childNumber in
           match childResult with
           | Some (key, i) => ret (children ++ [relatedNode (key.2) i])
           | None => ret children
           end)
          (λ _, ret children) in
      fetchChildren owner repo rest children'
  end.

Record HierarchyArgs := mkHierarchyArgs {
  hierarchyOwner : string;
  hierarchyRepo : string;
  issueNumber : N;
}.

(** [getIssueHierarchy(args)] *)
Definition getIssueHierarchy (args : HierarchyArgs) : Tool ToolResult :=
  let owner := toLowerCase (hierarchyOwner args) in
  let repo := hierarchyRepo args in
  let! result := queryIssue owner repo (issueNumber args) in
  match result with
  | None => throw (McpError InvalidRequest "Issue not found")
  | Some (key, issue) =>
      let current :=
        mkNode (key.2) (issueTitle issue) (issueState issue)
               (take 10 (issueLabels issue))
               (detectIssueType (issueTitle issue) (Some (issueBody issue))) in
      let! parents :=
        match parentMatch (issueBody issue) with
        | Some parentNumber =>
            tryCatch
              (let! parentResult := queryIssue owner repo parentNumber in
               match parentResult with
               | Some (pkey, p) => ret [relatedNode (pkey.2) p]
               | None => ret []
               end)
              (λ _, ret [])
        | None => ret []
        end in
      let comments := take 100 (issueComments issue) in
      let childNumbers := childNumbersOf comments in
      let! children := fetchChildren owner repo childNumbers [] in
      ret (HierarchyResult (mkHierarchy current parents (sortChildren children)))
  end.

(** ** Issue creation *)

Record CreateIssueArgs := mkCreateIssueArgs {
  createOwner : string;
  createRepo : string;
  createTitle : string;
  createBody : option string;
  (** [None]: absent, defaults to [[]] *)
  createLabels : option (list string);
  createAssignees : option (list string);
  createMilestone : option N;
  createParentIssueNumber : option N;
}.

(** The labels sent with a new issue: the caller's, and the detected type
    unless it is among them already. *)
Definition autoLabelsOf (labels : list string) (issueType : option IssueType) : list string :=
  match issueType with
  | Some t => if bool_decide (typeName t ∈ labels) then labels else labels ++ [typeName t]
  | None => labels
  end.

Definition queryRepository (owner repo : string) : Tool (option ((string * string) * Repository)) :=
  λ w, (inr (pair (owner, repo) <$> repositories w !! (owner, repo)), w).

(** [user(login) { id }] *)
Definition queryUser (username : string) : Tool (option string) :=
  λ w, (inr (if bool_decide (username ∈ users w) then Some username else None), w).

(** [Promise.all(assignees.map(...))] followed by [filter(Boolean)] *)
Fixpoint queryUsers (usernames : list string) : Tool (list string) :=
  match usernames with
  | [] => ret []
  | username :: rest =>
      let! user := queryUser username in
      let! ids := queryUsers rest in
      ret (match user with Some id => id :: ids | None => ids end)
  end.

(** [createIssue(input: {...})]: the new issue takes the repository's next
    number. *)
Definition createIssueMutation (repositoryId : string * string) (title : string)
    (body : option string) (labelIds assigneeIds : option (list string))
    (milestoneId : option N) : Tool CreatedIssue :=
  λ w, match repositories w !! repositoryId with
       | None => (inl (GraphqlError "Could not resolve to a node with the global id"), w)
       | Some r =>
           let number := repoNextNumber r in
           let i := mkIssue title (default "" body) OPEN (default [] labelIds)
                            (default [] assigneeIds) milestoneId [] in
           (inr (mkCreatedIssue number title (default "" body) OPEN
                   (take 10 (issueLabels i)) (take 10 (issueAssignees i))
                   milestoneId None None),
            mkWorld (<[(repositoryId, number) := i]> (issues w))
                    (<[repositoryId :=
                         mkRepository (repoLabels r) (repoMilestones r) (number + 1)]>
                       (repositories w))
                    (users w) (subIssues w) (nativeSubIssueFailure w) (stderr w))
       end.

Definition withParentIssue (p : N * LinkType) (c : CreatedIssue) : CreatedIssue :=
  mkCreatedIssue (createdNumber c) (createdTitle c) (createdBody c) (createdState c)
    (createdLabels c) (createdAssignees c) (createdMilestone c) (Some p) (linkError c).

Definition withLinkError (m : string) (c : CreatedIssue) : CreatedIssue :=
  mkCreatedIssue (createdNumber c) (createdTitle c) (createdBody c) (createdState c)
    (createdLabels c) (createdAssignees c) (createdMilestone c) (parentIssue c) (Some m).

(** The part of [createIssue] up to and including the creating mutation. *)
Definition createIssueUpstream (owner : string) (args : CreateIssueArgs) : Tool CreatedIssue :=
  let repo := createRepo args in
  let title := createTitle args in
  let body := createBody args in
  let issueType := detectIssueType title body in
  let autoLabels := autoLabelsOf (default [] (createLabels args)) issueType in
  let! repoResult := queryRepository owner repo in
  match repoResult with
  | None => throw (McpError InvalidRequest "Repository not found")
  | Some (repositoryId, _) =>
      let! labelIds :=
        match autoLabels with
        | [] => ret None
        | _ =>
            let! labelsResult := queryRepository owner repo in
            let repoLabels := take 100 (default [] (repoLabels ∘ snd <$> labelsResult)) in
            ret (Some (filter (λ labelName, labelName ∈ repoLabels) autoLabels))
        end in
      let! assigneeIds :=
        match createAssignees args with
        | Some ((_ :: _) as assignees) =>
            let! ids := queryUsers assignees in ret (Some ids)
        | _ => ret None
        end in
      let! milestoneId :=
        match createMilestone args with
        | Some milestone =>
            if bool_decide (milestone = 0) then ret None
            else
              let! milestoneResult := queryRepository owner repo in
              ret (match milestoneResult with
                   | Some (_, r) =>
                       if bool_decide (milestone ∈ repoMilestones r) then Some milestone else None
                   | None => None
                   end)
        | None => ret None
        end in
      createIssueMutation repositoryId title
        (match body with Some EmptyString => None | _ => body end)
        labelIds assigneeIds milestoneId
  end.

(** [createIssue(args)] *)
Definition createIssue (args : CreateIssueArgs) : Tool ToolResult :=
  let owner := toLowerCase (createOwner args) in
  let repo := createRepo args in
  let! createdIssue := createIssueUpstream owner args in
  let! createdIssue :=
    match createParentIssueNumber args with
    | Some parentIssueNumber =>
        if bool_decide (parentIssueNumber = 0) then ret createdIssue
        else
          tryCatch
            (linkIssues (mkLinkArgs owner repo parentIssueNumber
                           (createdNumber createdIssue) (Some tracks)) ;;
             ret (withParentIssue (parentIssueNumber, tracks) createdIssue))
            (λ linkError, ret (withLinkError (errorMessage linkError) createdIssue))
    | None => ret createdIssue
    end in
  ret (CreatedIssueResult createdIssue).

(** ** Label provisioning *)

(** A label as a caller describes it: [description] is optional. *)
Record LabelDef := mkLabelDef {
  labelName : string;
  labelColor : string;
  labelDescription : option string;
}.

Definition defaultLabels : list LabelDef :=
  [mkLabelDef "epic" "6B46C1" (Some "Large initiative or milestone");
   mkLabelDef "feature" "0E8A16" (Some "New feature or enhancement");
   mkLabelDef "bug" "D73A4A" (Some "Something isn't working");
   mkLabelDef "task" "0075CA" (Some "General task or chore");
   mkLabelDef "story" "1D76DB" (Some "User story");
   mkLabelDef "documentation" "0052CC" (Some "Documentation updates")].

(** One entry of the report of [ensureLabels]: [action] is ['created'],
    ['error'] or ['exists']. *)
Inductive LabelReport :=
  | LabelCreated (label : LabelDef)
  | LabelError (label : string) (error : string)
  | LabelExists (label : string).

(** [createLabel(input: {repositoryId, name, color, description})].  The
    service keeps label names unique whatever their case and refuses a name
    that is taken; a new label goes last in the [labels] connection.  Other
    validations of the service are not modelled. *)
Definition createLabelMutation (repositoryId : string * string) (name color : string)
    (description : option string) : Tool LabelDef :=
  λ w, match repositories w !! repositoryId with
       | None => (inl (GraphqlError "Could not resolve to a node with the global id"), w)
       | Some r =>
           if bool_decide (toLowerCase name ∈ toLowerCase <$> repoLabels r)
           then (inl (GraphqlError "Name has already been taken"), w)
           else
             (inr (mkLabelDef name color description),
              mkWorld (issues w)
                      (<[repositoryId :=
                           mkRepository (repoLabels r ++ [name]) (repoMilestones r)
                                        (repoNextNumber r)]> (repositories w))
                      (users w) (subIssues w) (nativeSubIssueFailure w) (stderr w))
       end.

(** The loop of [ensureLabels] over [labelsToEnsure]; [existingLabelNames] is
    read once, before the loop. *)
Fixpoint ensureLabelsLoop (repositoryId : string * string)
    (existingLabelNames : list string) (labelsToEnsure : list LabelDef)
    (results : list LabelReport) : Tool (list LabelReport) :=
  match labelsToEnsure with
  | [] => ret results
  | labelDef :: rest =>
      let! results' :=
        if negb (bool_decide (toLowerCase (labelName labelDef) ∈ existingLabelNames))
        then
          tryCatch
            (let! label :=
               createLabelMutation repositoryId (labelName labelDef)
                 (labelColor labelDef) (labelDescription labelDef) in
             ret (results ++ [LabelCreated label]))
            (λ error,
               ret (results ++ [LabelError (labelName labelDef) (errorMessage error)]))
        else ret (results ++ [LabelExists (labelName labelDef)]) in
      ensureLabelsLoop repositoryId existingLabelNames rest results'
  end.

Record EnsureLabelsArgs := mkEnsureLabelsArgs {
  ensureOwner : string;
  ensureRepo : string;
  (** [None]: absent, the default labels are used; an empty list is a list *)
  ensureLabelsList : option (list LabelDef);
}.

(** [ensureLabels(args)] *)
Definition ensureLabels (args : EnsureLabelsArgs) : Tool (list LabelReport) :=
  let owner := toLowerCase (ensureOwner args) in
  let repo := ensureRepo args in
  let labelsToEnsure := default defaultLabels (ensureLabelsList args) in
  let! repoResult := queryRepository owner repo in
  match repoResult with
  | None => throw (McpError InvalidRequest "Repository not found")
  | Some (repositoryId, _) =>
      let! existingLabelsResult := queryRepository owner repo in
      let existingLabels :=
        take 100 (default [] (repoLabels ∘ snd <$> existingLabelsResult)) in
      let existingLabelNames := toLowerCase <$> existingLabels in
      ensureLabelsLoop repositoryId existingLabelNames labelsToEnsure []
  end.

(** ** Start-up and the tool-call boundary *)

(** [s.trimStart()] *)
Fixpoint trimStart (s : string) : string :=
  match s with
  | EmptyString => EmptyString
  | String c s' => if isWhiteSpace c then trimStart s' else s
  end.

(** [s.trim()] *)
Definition trim (s : string) : string := trimEnd (trimStart s).

(** The authorization header built from the token. *)
Definition authHeader (GITHUB_TOKEN : string) : string :=
  let cleanToken := trim GITHUB_TOKEN in
  if startsWith "github_pat_" cleanToken
  then "Bearer " +:+ cleanToken
  else "token " +:+ cleanToken.

(** The start of the module: without a token ([undefined] or empty) the
    process exits ([None]), otherwise the header is set up. *)
Definition startup (GITHUB_TOKEN : option string) : option string :=
  match GITHUB_TOKEN with
  | None | Some EmptyString => None
  | Some token => Some (authHeader token)
  end.

(** The [default] branch of the switch over tool names. *)
Definition unknownTool (name : string) : Tool ToolResult :=
  throw (McpError MethodNotFound ("Unknown tool: " +:+ name)).

(** The [try]/[catch] of the request handler around the tool the switch
    selects: an [McpError] is thrown on, any other error is wrapped. *)
Definition atToolBoundary {A} (tool : Tool A) : Tool A :=
  tryCatch tool
    (λ error,
       match error with
       | McpError _ _ => throw error
       | GraphqlError message =>
           let errorMessage := "GitHub API error: " +:+ message in
           let errorMessage :=
             if includes message "Bad credentials"
             then errorMessage +:+
                  ". Please check that your GitHub token is valid and has the required permissions (repo, project, read:org)."
             else errorMessage in
           throw (McpError InternalError errorMessage)
       end).

(** ** Vocabulary of the statements *)

(** *** Texts *)

(** Every code unit of [s] satisfies [P]. *)
Fixpoint allChars (P : ascii → bool) (s : string) : bool :=
  match s with
  | EmptyString => true
  | String c s' => P c && allChars P s'
  end.

(** [s] goes on one line: it holds no line terminator. *)
Definition singleLine (s : string) : bool :=
  allChars (λ c, negb (isLineTerminator c)) s.

(** No digit at the head of [r]: the run of digits before it cannot go on. *)
Definition noDigitAhead (r : string) : Prop :=
  match r with
  | EmptyString => True
  | String c _ => isDigit c = false
  end.

(** A code unit that a replacement string takes literally. *)
Definition notDollar (c : ascii) : bool := negb (bool_decide (c = "$"%char)).

(** The text of a task-list item: a box, checked or not, a number and a rest
    of line. *)
Definition itemText (x : ascii) (d t : string) : string :=
  "- [" +:+ String x ("] #" +:+ d +:+ t).

Definition isBox (x : ascii) : bool :=
  bool_decide (x = " "%char) || bool_decide (x = "x"%char).

(** The checklist line that [linkIssues] writes for a child. *)
Definition childTaskItem (childIssueNumber : N) (childIssueTitle : string) : string :=
  "- [ ] #" +:+ numberToString childIssueNumber +:+ " " +:+ childIssueTitle.

(** The lines of a text, split at line feeds. *)
Fixpoint splitLines (s : string) : list string :=
  match s with
  | EmptyString => [EmptyString]
  | String c s' =>
      if bool_decide (c = "010"%char) then EmptyString :: splitLines s'
      else
        match splitLines s' with
        | l :: ls => String c l :: ls
        | [] => [String c EmptyString]
        end
  end.

(** A checklist line for issue [n]: a box, checked or not, then [#n] and no
    further digit. *)
Definition referencesIssue (n : N) (line : string) : bool :=
  match stripPrefix "- [" line with
  | Some (String x r) =>
      isBox x &&
      match stripPrefix ("] #" +:+ numberToString n) r with
      | Some (String c _) => negb (isDigit c)
      | Some EmptyString => true
      | None => false
      end
  | _ => false
  end.

(** The number of checklist lines for issue [n] in a body. *)
Definition checklistLines (n : N) (body : string) : nat :=
  length (filter (λ l, referencesIssue n l = true) (splitLines body)).

(** The body of a child that [linkIssues] can mark: it holds no text
    [**Parent:**], or the first one it holds stands in a parent block
    ([\n\n---\n**Parent:**]) with at least one more character on its line. *)
Definition markable (body : string) : Prop :=
  includes body "**Parent:**" = false ∨
  ∃ pre c r, body = pre +:+ parentBlockHead +:+ String c r ∧
             includes pre "**Parent:**" = false ∧ isLineTerminator c = false.

(** *** Stores and calls *)

(** The store keys of the two issues of a link. *)
Definition parentKey (args : LinkArgs) : IssueKey :=
  (toLowerCase (linkOwner args), linkRepo args, parentIssueNumber args).

Definition childKey (args : LinkArgs) : IssueKey :=
  (toLowerCase (linkOwner args), linkRepo args, childIssueNumber args).

Definition subParentKey (args : SubIssueArgs) : IssueKey :=
  (toLowerCase (subOwner args), subRepo args, subParentIssueNumber args).

Definition subChildKey (args : SubIssueArgs) : IssueKey :=
  (toLowerCase (subOwner args), subRepo args, subChildIssueNumber args).

(** The call [link(parent, child, tracks)] that [addSubIssue] is compared
    with. *)
Definition directLink (args : SubIssueArgs) : LinkArgs :=
  mkLinkArgs (subOwner args) (subRepo args) (subParentIssueNumber args)
    (subChildIssueNumber args) (Some tracks).

(** The link step of [createIssue] for parent [p]. *)
Definition createLink (args : CreateIssueArgs) (p : N) (created : CreatedIssue) : LinkArgs :=
  mkLinkArgs (toLowerCase (createOwner args)) (createRepo args) p
             (createdNumber created) (Some tracks).

(** A store that differs from [w] by one more line on [stderr]. *)
Definition logged (line : string) (w : World) : World :=
  mkWorld (issues w) (repositories w) (users w) (subIssues w)
          (nativeSubIssueFailure w) (stderr w ++ [line]).

(** A computation that neither reads nor writes [stderr]. *)
Definition logIndependent {A} (line : string) (c : Tool A) : Prop :=
  ∀ w, c (logged line w) = ((c w).1, logged line (c w).2).

(** The view a hierarchy call returns, when it succeeds. *)
Definition hierarchyOf (owner repo : string) (number : N) (w : World) : option Hierarchy :=
  match (getIssueHierarchy (mkHierarchyArgs owner repo number) w).1 with
  | inr (HierarchyResult h) => Some h
  | _ => None
  end.

(** The parent's body after [n] successive calls of [linkIssues args]. *)
Definition parentBodyAfter (n : nat) (args : LinkArgs) (w : World) : option string :=
  issueBody <$> issues (Nat.iter n (λ w, (linkIssues args w).2) w) !! parentKey args.

(** Ascending order of a key. *)
Definition ascending {A} (key : A → Z) (a b : A) : Prop := (key a ≤ key b)%Z.

(** *** A small store for the examples

    Repository octo/demo with issue 100 (an epic) and issue 101; no issue 7
    and no issue 8. *)
Definition exampleWorld : World :=
  mkWorld
    (<[("octo", "demo", 100) :=
         mkIssue "Epic: sign-in" "Scope of the work." OPEN ["epic"] [] None []]>
     (<[("octo", "demo", 101) :=
         mkIssue "Fix login redirect" "" OPEN [] [] None []]> ∅))
    {[ ("octo", "demo") := mkRepository ["epic"; "bug"; "feature"] [1] 102 ]}
    ["mona"] [] None [].

(** The same store on a service without the native sub-issue mutation. *)
Definition exampleWorldNoNative : World :=
  mkWorld (issues exampleWorld) (repositories exampleWorld) (users exampleWorld) []
          (Some "Unknown field 'addSubIssue' on type 'Mutation'") [].

(** [exampleWorld] with a child whose body already talks about a parent, in
    words of its author. *)
Definition exampleWorldMarked : World :=
  setIssues
    (insert ("octo", "demo", 101)
       (mkIssue "Fix login redirect" "**Parent:** to be decided" OPEN [] [] None []))
    exampleWorld.


(** [exampleWorld] with a parent whose body holds two task lists. *)
Definition exampleWorldTwoLists : World :=
  setIssues
    (insert ("octo", "demo", 100)
       (mkIssue "Epic: sign-in"
          ("- [ ] #5 Design" +:+ LF +:+ LF +:+ "Later:" +:+ LF +:+ "- [ ] #6 Rollout" +:+ LF)
          OPEN ["epic"] [] None []))
    exampleWorld.

(** [exampleWorld] with a parent whose task list tracks issue 1010. *)
Definition exampleWorldTracking : World :=
  setIssues
    (insert ("octo", "demo", 100)
       (mkIssue "Epic: sign-in" ("- [ ] #1010 Release notes" +:+ LF)
          OPEN ["epic"] [] None []))
    exampleWorld.

(** A call of [createIssue] with a parent that does not exist, and the issue
    it creates in [exampleWorld]. *)
Definition exampleCreate : CreateIssueArgs :=
  mkCreateIssueArgs "Octo" "demo" "Fix the crash on start" (Some "It crashes.")
    None (Some ["mona"; "ghost"]) (Some 1) (Some 7).

Definition exampleCreated : CreatedIssue :=
  mkCreatedIssue 102 "Fix the crash on start" "It crashes." OPEN ["bug"] ["mona"]
    (Some 1) None None.

(** *** Views, links and labels *)

(** What a hierarchy view reads of an issue. *)
Definition hierarchyFields (i : Issue)
  : string * string * IssueState * list string * list N :=
  (issueTitle i, issueBody i, issueState i, issueLabels i,
   childNumbersOf (take 100 (issueComments i))).

(** What a hierarchy view reads of a parent or a child. *)
Definition relatedFields (i : Issue) : string * IssueState * list string :=
  (issueTitle i, issueState i, issueLabels i).

(** The comments a link of type [lt] posts on the parent and on the child. *)
Definition parentCommentOf (lt : LinkType) (childIssueNumber : N) : string :=
  match lt with
  | tracks => "Tracks #" | blocks => "Blocks #" | related => "Related to #"
  end +:+ numberToString childIssueNumber.

Definition childCommentOf (lt : LinkType) (parentIssueNumber : N) : string :=
  match lt with
  | tracks => "Tracked by #" | blocks => "Blocked by #" | related => "Related to #"
  end +:+ numberToString parentIssueNumber.

(** [i'] is [i] but for its body and its comments. *)
Definition sameHeader (i i' : Issue) : Prop :=
  issueTitle i' = issueTitle i ∧ issueState i' = issueState i ∧
  issueLabels i' = issueLabels i ∧ issueAssignees i' = issueAssignees i ∧
  issueMilestone i' = issueMilestone i.

(** The labels [createIssue] sends for a new issue in repository [r]. *)
Definition sentLabels (args : CreateIssueArgs) (r : Repository) : list string :=
  filter (λ labelName, labelName ∈ take 100 (repoLabels r))
         (autoLabelsOf (default [] (createLabels args))
                       (detectIssueType (createTitle args) (createBody args))).

(** The store key of the repository of a [createIssue] call. *)
Definition createRepoKey (args : CreateIssueArgs) : string * string :=
  (toLowerCase (createOwner args), createRepo args).

(** The label an entry of the report is about. *)
Definition reportName (report : LabelReport) : string :=
  match report with
  | LabelCreated label => labelName label
  | LabelError label _ => label
  | LabelExists label => label
  end.

Definition isCreated (report : LabelReport) : bool :=
  match report with LabelCreated _ => true | _ => false end.

Definition isExists (report : LabelReport) : bool :=
  match report with LabelExists _ => true | _ => false end.

(** The store key of the repository of an [ensureLabels] call, and the labels
    the call is to ensure. *)
Definition ensureKey (args : EnsureLabelsArgs) : string * string :=
  (toLowerCase (ensureOwner args), ensureRepo args).

Definition requestedLabels (args : EnsureLabelsArgs) : list LabelDef :=
  default defaultLabels (ensureLabelsList args).

(** [w] with the repository [id] replaced by [r]. *)
Definition withRepository (id : string * string) (r : Repository) (w : World) : World :=
  mkWorld (issues w) (<[id := r]> (repositories w)) (users w) (subIssues w)
          (nativeSubIssueFailure w) (stderr w).

(** [r] with the labels [labels]. *)
Definition withLabels (labels : list string) (r : Repository) : Repository :=
  mkRepository labels (repoMilestones r) (repoNextNumber r).

(** A store whose repository spells its labels with capitals. *)
Definition exampleWorldCapitals : World :=
  mkWorld (issues exampleWorld)
    {[ ("octo", "demo") := mkRepository ["Epic"; "Bug"] [1] 102 ]}
    (users exampleWorld) [] None [].

(** The repository of [exampleWorld]. *)
Definition exampleRepository : Repository :=
  mkRepository ["epic"; "bug"; "feature"] [1] 102.

(** [exampleWorld] after issue 101 has been linked under issue 100, with a
    third issue beside them. *)
Definition exampleWorldThree : World :=
  setIssues
    (insert ("octo", "demo", 99)
       (mkIssue "Write the guide" "" OPEN ["documentation"] [] None []))
    (linkIssues (mkLinkArgs "octo" "demo" 100 101 None) exampleWorld).2.

(** The children of a view in the order of their discovery: what the loop
    over [childNumbers] has pushed when the sort begins. *)
Definition discoveredChildren (args : HierarchyArgs) (w : World) : list HierarchyNode :=
  let owner := toLowerCase (hierarchyOwner args) in
  let repo := hierarchyRepo args in
  match issues w !! (owner, repo, issueNumber args) with
  | Some issue =>
      let comments := take 100 (issueComments issue) in
      match (fetchChildren owner repo (childNumbersOf comments) [] w).1 with
      | inr children => children
      | inl _ => []
      end
  | None => []
  end.

(** A store with an issue that tracks four others: a bug, an epic, a task
    and another epic, mentioned in that order in its comments. *)
Definition exampleWorldFamily : World :=
  mkWorld
    (<[("octo", "demo", 10) :=
         mkIssue "Release 2.0" "" OPEN [] [] None
                 ["Tracks #11"; "Tracks #12, then Tracks #13"; "Tracks #14"; "Tracks #11"]]>
     (<[("octo", "demo", 11) := mkIssue "Fix the crash" "" OPEN ["bug"] [] None []]>
      (<[("octo", "demo", 12) := mkIssue "Epic: sign-in" "" OPEN ["epic"] [] None []]>
       (<[("octo", "demo", 13) :=
            mkIssue "Refactor the session store" "" CLOSED [] [] None []]>
        (<[("octo", "demo", 14) := mkIssue "Epic: billing" "" OPEN [] [] None []]> ∅)))))
    {[ ("octo", "demo") := mkRepository ["epic"; "bug"; "feature"] [1] 15 ]}
    ["mona"] [] None [].

(** * Properties *)

(** ** Strings and numbers *)

Section Strings.

#[local] Arguments append : simpl nomatch.
Implicit Types (s p k r : string) (c : ascii).

Lemma append_nil_r s : s +:+ "" = s.
Proof. induction s; simpl; by f_equal. Qed.

Lemma append_assoc s1 s2 s3 : (s1 +:+ s2) +:+ s3 = s1 +:+ (s2 +:+ s3).
Proof. induction s1; simpl; by f_equal. Qed.

Lemma append_length s1 s2 : String.length (s1 +:+ s2) = (String.length s1 + String.length s2)%nat.
Proof. induction s1; simpl; by f_equal. Qed.

Lemma stripPrefix_app p r : stripPrefix p (p +:+ r) = Some r.
Proof. induction p as [|a p IH]; simpl; [done|]. by rewrite decide_True. Qed.

Lemma stripPrefix_Some p s r : stripPrefix p s = Some r → s = p +:+ r.
Proof.
  revert s; induction p as [|a p IH]; intros [|b s]; simpl; try congruence.
  case_decide; [|done]. intros ?%IH. congruence.
Qed.

Lemma startsWith_app p r : startsWith p (p +:+ r) = true.
Proof. induction p as [|a p IH]; simpl; [done|]. by rewrite decide_True. Qed.

Lemma startsWith_true p s : startsWith p s = true → ∃ r, s = p +:+ r.
Proof.
  revert s; induction p as [|a p IH]; intros [|b s]; simpl; try done; eauto.
  case_decide; [|done]. intros [r ->]%IH. subst. eauto.
Qed.

(** A literal without the character [c] matches at the head of
    [s +:+ String c r] only if it matches at the head of [s]. *)
Lemma startsWith_app_fresh p s c r :
  (∀ q1 q2, p ≠ q1 +:+ String c q2) →
  startsWith p (s +:+ String c r) = startsWith p s.
Proof.
  revert s; induction p as [|a p IH]; intros s Hp; [done|].
  destruct s as [|b s]; simpl.
  - case_decide; [|done]. subst. by destruct (Hp "" p).
  - case_decide; [|done]. apply IH. intros q1 q2 ->. by apply (Hp (String a q1) q2).
Qed.

Lemma includes_cons_false c s k :
  includes (String c s) k = false → startsWith k (String c s) = false ∧ includes s k = false.
Proof. simpl. by intros [? ?]%orb_false_elim. Qed.

Lemma includes_here s k : startsWith k s = true → includes s k = true.
Proof. intros H. destruct s; simpl; by rewrite H. Qed.

Lemma includes_cons c s k : includes s k = true → includes (String c s) k = true.
Proof. intros H. simpl. rewrite H. by destruct (startsWith k _). Qed.

Lemma includes_app_r s r k : includes r k = true → includes (s +:+ r) k = true.
Proof. intros H. induction s; simpl; [done|]. by apply includes_cons. Qed.

Lemma includes_app_l s r k : includes s k = true → includes (s +:+ r) k = true.
Proof.
  induction s as [|a s IH]; simpl.
  - destruct k; [|done]. intros _. by apply includes_here.
  - intros [Hk|Hk]%orb_prop.
    + apply (includes_here (String a (s +:+ r))). apply startsWith_true in Hk as [q Hq].
      change (String a (s +:+ r)) with (String a s +:+ r).
      rewrite Hq, append_assoc. apply startsWith_app.
    + by apply includes_cons, IH.
Qed.

Lemma includes_app_here s k r : includes (s +:+ k +:+ r) k = true.
Proof. apply includes_app_r, includes_here, startsWith_app. Qed.

End Strings.

Section Numbers.

#[local] Arguments append : simpl nomatch.
Implicit Types (s r : string) (n : N) (d : Decimal.uint).

Lemma spanDigits_uint d r :
  noDigitAhead r →
  spanDigits (NilEmpty.string_of_uint d +:+ r) = (NilEmpty.string_of_uint d, r).
Proof.
  intros Hr. induction d; simpl; rewrite ?IHd; try done.
  destruct r as [|c r]; simpl in *; [done|]. by rewrite Hr.
Qed.

Lemma numberToString_uint n :
  ∃ d, numberToString n = NilEmpty.string_of_uint d ∧ d ≠ Decimal.Nil ∧ N.of_uint d = n.
Proof.
  unfold numberToString. pose proof (Unsigned.of_to n) as Hn.
  destruct (N.to_uint n) as [| | | | | | | | | |] eqn:Hd;
    [exists (Decimal.D0 Decimal.Nil); by rewrite <- Hn
    |eexists (_ _); split; [reflexivity|]; split; [discriminate|done]..].
Qed.

Lemma spanDigits_number n r :
  noDigitAhead r → spanDigits (numberToString n +:+ r) = (numberToString n, r).
Proof.
  intros Hr. destruct (numberToString_uint n) as (d & -> & _ & _).
  by apply spanDigits_uint.
Qed.

Lemma numberToString_nonempty n : numberToString n ≠ "".
Proof.
  destruct (numberToString_uint n) as (d & -> & Hd & _). by destruct d.
Qed.

Lemma parseInt_number n : parseInt (numberToString n) = n.
Proof.
  destruct (numberToString_uint n) as (d & -> & _ & Hn).
  unfold parseInt. by rewrite NilEmpty.usu.
Qed.

End Numbers.

Section Spans.
#[local] Arguments append : simpl nomatch.
Implicit Types (s r t d : string) (c : ascii).

Lemma spanDigits_spec s d r :
  spanDigits s = (d, r) → s = d +:+ r ∧ allChars isDigit d = true ∧ noDigitAhead r.
Proof.
  revert d r; induction s as [|c s IH]; intros d r; simpl.
  - by intros [= <- <-].
  - destruct (isDigit c) eqn:Hc.
    + destruct (spanDigits s) as [d' r'] eqn:E. intros [= <- <-].
      destruct (IH d' r' eq_refl) as (-> & Hd & Hr). simpl. by rewrite Hc, Hd.
    + intros [= <- <-]. simpl. done.
Qed.

Lemma spanDigits_intro d r :
  allChars isDigit d = true → noDigitAhead r → spanDigits (d +:+ r) = (d, r).
Proof.
  intros Hd Hr. induction d as [|c d IH]; simpl in *.
  - destruct r as [|c r]; simpl in *; [done|]. by rewrite Hr.
  - apply andb_prop in Hd as [-> Hd]. by rewrite IH.
Qed.

Lemma spanDot_spec s t r :
  spanDot s = (t, r) →
  s = t +:+ r ∧ singleLine t = true ∧
  match r with EmptyString => True | String c _ => isLineTerminator c = true end.
Proof.
  revert t r; induction s as [|c s IH]; intros t r; simpl.
  - by intros [= <- <-].
  - destruct (isLineTerminator c) eqn:Hc.
    + intros [= <- <-]. simpl. done.
    + destruct (spanDot s) as [t' r'] eqn:E. intros [= <- <-].
      destruct (IH t' r' eq_refl) as (-> & Ht & Hr). unfold singleLine in *. simpl.
      by rewrite Hc, Ht.
Qed.

Lemma spanDot_intro t c r :
  singleLine t = true → isLineTerminator c = true →
  spanDot (t +:+ String c r) = (t, String c r).
Proof.
  intros Ht Hc. induction t as [|a t IH]; unfold singleLine in *; simpl in *.
  - by rewrite Hc.
  - apply andb_prop in Ht as [Ha Ht]. apply negb_true_iff in Ha. by rewrite Ha, IH.
Qed.

Lemma numberToString_digits n : allChars isDigit (numberToString n) = true.
Proof.
  pose proof (spanDigits_number n "" I) as H. rewrite append_nil_r in H.
  by apply spanDigits_spec in H as (_ & ? & _).
Qed.

End Spans.


(** ** The classifier *)

Section Classifier.

Implicit Types (title text : string) (body : option string) (t : IssueType).

Example detect_epic_example :
  detectIssueType "Epic: Implement user authentication system" None = Some epic.
Proof. reflexivity. Qed.

Lemma hasKeyword_epic text :
  hasKeyword text epic =
  includes text "epic" || includes text "initiative" ||
  includes text "milestone" || includes text "parent".
Proof. unfold hasKeyword; cbn [keywords existsb]. by rewrite orb_false_r, !orb_assoc. Qed.

Lemma hasKeyword_feature text :
  hasKeyword text feature =
  includes text "feature" || includes text "enhancement" ||
  includes text "new functionality" || includes text "add support" ||
  includes text "implement".
Proof. unfold hasKeyword; cbn [keywords existsb]. by rewrite orb_false_r, !orb_assoc. Qed.

Lemma hasKeyword_bug text :
  hasKeyword text bug =
  includes text "bug" || includes text "fix" || includes text "error" ||
  includes text "issue" || includes text "broken" || includes text "crash".
Proof. unfold hasKeyword; cbn [keywords existsb]. by rewrite orb_false_r, !orb_assoc. Qed.

Lemma hasKeyword_task text :
  hasKeyword text task =
  includes text "task" || includes text "chore" || includes text "refactor" ||
  includes text "update" || includes text "clean".
Proof. unfold hasKeyword; cbn [keywords existsb]. by rewrite orb_false_r, !orb_assoc. Qed.

Lemma hasKeyword_story text :
  hasKeyword text story =
  includes text "story" || includes text "user story" ||
  includes text "as a user" || includes text "i want".
Proof. unfold hasKeyword; cbn [keywords existsb]. by rewrite orb_false_r, !orb_assoc. Qed.

Lemma hasKeyword_documentation text :
  hasKeyword text documentation =
  includes text "documentation" || includes text "docs" ||
  includes text "readme" || includes text "guide".
Proof. unfold hasKeyword; cbn [keywords existsb]. by rewrite orb_false_r, !orb_assoc. Qed.

(** The space between title and body is part of the text: a keyword is not
    found across the two, and a keyword with a space can span them. *)
Example combinedText_separator :
  detectIssueType "Call it an epi" (Some "c") = None ∧
  detectIssueType "Something new" (Some "functionality") = Some feature.
Proof. split; reflexivity. Qed.

(** The classifier is the cascade of the six keyword tests, in the order of
    [testOrder]. *)
Lemma detectIssueType_cascade title body :
  detectIssueType title body =
  let text := combinedText title body in
  if hasKeyword text epic then Some epic
  else if hasKeyword text feature then Some feature
  else if hasKeyword text bug then Some bug
  else if hasKeyword text task then Some task
  else if hasKeyword text story then Some story
  else if hasKeyword text documentation then Some documentation
  else None.
Proof.
  unfold detectIssueType.
  by rewrite <- hasKeyword_epic, <- hasKeyword_feature, <- hasKeyword_bug,
    <- hasKeyword_task, <- hasKeyword_story, <- hasKeyword_documentation.
Qed.

(** C2.  Tie-break of the classifier: the text is the lower-cased title,
    a space and the body (a missing body counts as empty); when the text
    holds a keyword of category [t] and no keyword of a category tested
    before [t], the classifier returns [t], whatever keywords of later
    categories the text holds as well.  The order of the tests is epic,
    feature, bug, task, story, documentation. *)
Theorem classify_tie_break title body t :
  hasKeyword (combinedText title body) t = true →
  (∀ t', (testRank t' < testRank t)%nat → hasKeyword (combinedText title body) t' = false) →
  combinedText title body = toLowerCase (title +:+ " " +:+ default "" body) ∧
  testOrder = [epic; feature; bug; task; story; documentation] ∧
  detectIssueType title body = Some t.
Proof.
  intros Ht Hbefore. split; [reflexivity|]. split; [reflexivity|].
  rewrite detectIssueType_cascade. cbv zeta.
  destruct t; rewrite ?Ht;
    repeat match goal with
    | |- context [hasKeyword _ ?t'] =>
        rewrite (Hbefore t') by (cbn; lia)
    end; rewrite ?Ht; reflexivity.
Qed.

(** The example of the specification: the title holds "epic" and also the
    feature keyword "implement", and is classified as an epic. *)
Lemma classify_tie_break_witness :
  hasKeyword (combinedText "Epic: Implement user authentication system" None) feature = true ∧
  detectIssueType "Epic: Implement user authentication system" None = Some epic.
Proof.
  split; [reflexivity|].
  apply (classify_tie_break "Epic: Implement user authentication system" None epic).
  - reflexivity.
  - intros t' Ht'. cbn in Ht'. lia.
Defined.

(** C10.  The classifier tests substring containment, not whole words: the
    title "Map the epicenter" holds no keyword as a word of its own, only
    "epic" inside "epicenter", and is classified as an epic; with a word
    that does not hold "epic" in its place the result is [None]. *)
Theorem classify_substring_not_word :
  let title := "Map the epicenter" in
  String.words (combinedText title None) = ["map"; "the"; "epicenter"] ∧
  (∀ t, Forall (λ w, w ∉ keywords t) (String.words (combinedText title None))) ∧
  detectIssueType title None = Some epic ∧
  detectIssueType "Map the centre" None = None.
Proof.
  cbv zeta. split; [reflexivity|]. split; [|split; reflexivity].
  intros t. change (String.words _) with ["map"; "the"; "epicenter"].
  destruct t; repeat constructor; by apply (bool_decide_unpack _).
Qed.

End Classifier.

(** ** Sorting the children *)

Section ArraySort.

Context {A : Type} (compare : A → A → Z) (key : A → Z).
Hypothesis compare_key : ∀ a b, compare a b = (key a - key b)%Z.

Lemma insertSorted_perm x l : insertSorted compare x l ≡ₚ x :: l.
Proof.
  induction l as [|y l IH]; cbn; [done|].
  case_match; [done|]. by rewrite IH, Permutation_swap.
Qed.

Lemma arraySort_perm l : arraySort compare l ≡ₚ l.
Proof.
  induction l as [|x l IH]; cbn; [done|].
  by rewrite insertSorted_perm, IH.
Qed.

Lemma insertSorted_sorted x l :
  StronglySorted (ascending key) l → StronglySorted (ascending key) (insertSorted compare x l).
Proof.
  induction 1 as [|y l Hl IH Hy]; cbn.
  - repeat constructor.
  - rewrite compare_key. case_match eqn:Hcmp.
    + apply Z.leb_le in Hcmp.
      constructor; [by constructor|].
      constructor; [unfold ascending; lia|].
      eapply Forall_impl; [exact Hy|]. unfold ascending. intros; cbn in *; lia.
    + apply Z.leb_gt in Hcmp.
      constructor; [done|].
      rewrite insertSorted_perm. constructor; [unfold ascending; lia | done].
Qed.

Lemma arraySort_sorted l : StronglySorted (ascending key) (arraySort compare l).
Proof.
  induction l; cbn; [constructor | by apply insertSorted_sorted].
Qed.

(** Insertion does not change the order among the elements of one key. *)
Lemma insertSorted_stable (p : Z) x l :
  filter (λ a, key a = p) (insertSorted compare x l) =
  filter (λ a, key a = p) (x :: l).
Proof.
  induction l as [|y l IH]; cbn; [done|].
  rewrite compare_key. case_match eqn:Hcmp; [done|].
  apply Z.leb_gt in Hcmp.
  rewrite !filter_cons in *.
  repeat case_decide; try lia; by rewrite ?IH.
Qed.

Lemma arraySort_stable (p : Z) l :
  filter (λ a, key a = p) (arraySort compare l) = filter (λ a, key a = p) l.
Proof.
  induction l as [|x l IH]; [done|].
  change (arraySort compare (x :: l)) with (insertSorted compare x (arraySort compare l)).
  by rewrite insertSorted_stable, !filter_cons, IH.
Qed.

End ArraySort.

Section ChildrenSort.

Implicit Types (c : HierarchyNode) (children : list HierarchyNode).

(** The children of a hierarchy view are the fetched children, sorted. *)
Lemma getIssueHierarchy_children args w h w' :
  getIssueHierarchy args w = (inr (HierarchyResult h), w') →
  ∃ discovered, children h = sortChildren discovered.
Proof.
  unfold getIssueHierarchy, bind, queryIssue. cbn.
  destruct (issues w !! _) as [i|]; cbn; [|discriminate].
  repeat (case_match; try discriminate); unfold ret; intros [= <- <-]; eauto.
Qed.

Lemma insertChild_le c c' children :
  (typeOrder (nodeType c) ≤ typeOrder (nodeType c'))%Z →
  insertSorted compareChildren c (c' :: children) = c :: c' :: children.
Proof.
  intros H. cbn. unfold compareChildren. case_match eqn:Hcmp; [done|].
  apply Z.leb_gt in Hcmp. lia.
Qed.

Lemma insertChild_gt c c' children :
  (typeOrder (nodeType c') < typeOrder (nodeType c))%Z →
  insertSorted compareChildren c (c' :: children) =
  c' :: insertSorted compareChildren c children.
Proof.
  intros H. cbn. unfold compareChildren. case_match eqn:Hcmp; [|done].
  apply Z.leb_le in Hcmp. lia.
Qed.

(** The sort on children of types bug, epic, task, epic. *)
Lemma sortChildren_example (c1 c2 c3 c4 : HierarchyNode) :
  nodeType c1 = Some bug → nodeType c2 = Some epic →
  nodeType c3 = Some task → nodeType c4 = Some epic →
  sortChildren [c1; c2; c3; c4] = [c2; c4; c3; c1].
Proof.
  intros H1 H2 H3 H4.
  change (sortChildren [c1; c2; c3; c4]) with
    (insertSorted compareChildren c1
       (insertSorted compareChildren c2 (insertSorted compareChildren c3 [c4]))).
  rewrite (insertChild_gt c3 c4) by (rewrite H3, H4; cbn; lia).
  change (insertSorted compareChildren c3 []) with [c3].
  rewrite (insertChild_le c2 c4) by (rewrite H2, H4; cbn; lia).
  rewrite (insertChild_gt c1 c2) by (rewrite H1, H2; cbn; lia).
  rewrite (insertChild_gt c1 c4) by (rewrite H1, H4; cbn; lia).
  rewrite (insertChild_gt c1 c3) by (rewrite H1, H3; cbn; lia).
  reflexivity.
Qed.

End ChildrenSort.

(** ** The write path *)

Section Link.

Implicit Types (w : World) (args : LinkArgs).

Lemma linkIssues_parent_missing args w :
  issues w !! parentKey args = None →
  linkIssues args w = (inl (McpError InvalidRequest "Parent issue not found"), w).
Proof.
  intros H. unfold linkIssues, bind, queryIssue. simpl.
  unfold parentKey in H. by rewrite H.
Qed.

Lemma linkIssues_child_missing args w :
  is_Some (issues w !! parentKey args) →
  issues w !! childKey args = None →
  linkIssues args w = (inl (McpError InvalidRequest "Child issue not found"), w).
Proof.
  intros [pi Hp] Hc. unfold linkIssues, bind, queryIssue. simpl.
  unfold parentKey, childKey in *. rewrite Hp. simpl. by rewrite Hc.
Qed.

(** What a "tracks" link of two distinct existing issues does to the store:
    one comment and a new body on each of the two issues. *)
Lemma linkIssues_tracks args w pi ci :
  issues w !! parentKey args = Some pi →
  issues w !! childKey args = Some ci →
  parentIssueNumber args ≠ childIssueNumber args →
  default tracks (linkType args) = tracks →
  linkIssues args w =
  (inr (LinkResult true
          (mkIssueRef (parentIssueNumber args) (issueTitle pi))
          (mkIssueRef (childIssueNumber args) (issueTitle ci)) tracks),
   setIssues
     (λ m,
        <[parentKey args :=
            withBody (updatedParentBody (childIssueNumber args) (issueTitle ci) (issueBody pi))
              (withComment ("Tracks #" +:+ numberToString (childIssueNumber args)) pi)]>
        (<[childKey args :=
            withBody (updatedChildBody (parentIssueNumber args) (issueTitle pi) (issueBody ci))
              (withComment ("Tracked by #" +:+ numberToString (parentIssueNumber args)) ci)]>
         m)) w).
Proof.
  intros Hp Hc Hne Ht. unfold linkIssues, bind, queryIssue. simpl.
  unfold parentKey, childKey in *. rewrite Hp. simpl. rewrite Hc. simpl. rewrite Ht.
  unfold addComment, updateIssueBody, setIssues, ret. simpl.
  rewrite Hp. simpl.
  rewrite lookup_insert_ne by congruence. rewrite Hc. simpl.
  rewrite lookup_insert_eq. simpl.
  rewrite lookup_insert_ne by congruence. rewrite lookup_insert_ne by congruence.
  rewrite lookup_insert_eq. simpl.
  do 2 f_equal.
  rewrite insert_insert_eq.
  rewrite (insert_insert_ne _ (toLowerCase (linkOwner args), linkRepo args,
                               parentIssueNumber args)) by congruence.
  rewrite insert_insert_eq. by rewrite insert_insert_ne by congruence.
Qed.

(** C7.  A link whose parent or child number does not resolve fails with an
    invalid-request error naming the missing issue, and leaves the store as
    it was: no comment is posted and no body is modified. *)
Theorem linkIssues_not_found_atomic args w :
  issues w !! parentKey args = None ∨ issues w !! childKey args = None →
  linkIssues args w =
  (inl (McpError InvalidRequest
          (match issues w !! parentKey args with
           | Some _ => "Child issue not found"
           | None => "Parent issue not found"
           end)), w).
Proof.
  intros H. destruct (issues w !! parentKey args) as [pi|] eqn:Hp.
  - destruct H as [?|Hc]; [done|]. by apply linkIssues_child_missing.
  - by apply linkIssues_parent_missing.
Qed.

Lemma linkIssues_not_found_atomic_witness :
  linkIssues (mkLinkArgs "Octo" "demo" 7 101 (Some tracks)) exampleWorld =
  (inl (McpError InvalidRequest "Parent issue not found"), exampleWorld) ∧
  linkIssues (mkLinkArgs "Octo" "demo" 100 8 (Some blocks)) exampleWorld =
  (inl (McpError InvalidRequest "Child issue not found"), exampleWorld).
Proof.
  split.
  - apply (linkIssues_not_found_atomic (mkLinkArgs "Octo" "demo" 7 101 (Some tracks))
             exampleWorld). left. reflexivity.
  - apply (linkIssues_not_found_atomic (mkLinkArgs "Octo" "demo" 100 8 (Some blocks))
             exampleWorld). right. reflexivity.
Defined.

End Link.

(** ** Native sub-issue attempt and issue creation *)

Section Log.

Context (line : string).

Lemma logIndependent_ret {A} (a : A) : logIndependent line (ret a).
Proof. done. Qed.

Lemma logIndependent_throw {A} e : logIndependent line (@throw A e).
Proof. done. Qed.

Lemma logIndependent_bind {A B} (c : Tool A) (k : A → Tool B) :
  logIndependent line c → (∀ a, logIndependent line (k a)) → logIndependent line (bind c k).
Proof.
  intros Hc Hk w. unfold bind. rewrite Hc.
  destruct (c w) as [[e|a] w']; simpl; [done|]. apply Hk.
Qed.

Lemma logIndependent_queryIssue owner repo number :
  logIndependent line (queryIssue owner repo number).
Proof. done. Qed.

Lemma logIndependent_addComment id body : logIndependent line (addComment id body).
Proof. intros w. unfold addComment. simpl. by destruct (issues w !! id). Qed.

Lemma logIndependent_updateIssueBody id body :
  logIndependent line (updateIssueBody id body).
Proof. intros w. unfold updateIssueBody. simpl. by destruct (issues w !! id). Qed.

Lemma logIndependent_linkIssues args : logIndependent line (linkIssues args).
Proof.
  unfold linkIssues.
  apply logIndependent_bind; [apply logIndependent_queryIssue|].
  intros [[pk pi]|]; [|apply logIndependent_throw].
  apply logIndependent_bind; [apply logIndependent_queryIssue|].
  intros [[ck ci]|]; [|apply logIndependent_throw].
  repeat (apply logIndependent_bind; [|intros ?]);
    try apply logIndependent_addComment; try apply logIndependent_ret.
  destruct (default tracks (linkType args)); try apply logIndependent_ret.
  apply logIndependent_bind; [|intros ?]; apply logIndependent_updateIssueBody.
Qed.

End Log.

Lemma lowerChar_idemp c : lowerChar (lowerChar c) = lowerChar c.
Proof. by destruct c as [[] [] [] [] [] [] [] []]. Qed.

Lemma toLowerCase_idemp s : toLowerCase (toLowerCase s) = toLowerCase s.
Proof. induction s as [|c s IH]; simpl; [done|]. by rewrite lowerChar_idemp, IH. Qed.

(** C8.  Fallback of [addSubIssue]: when both issues resolve and the native
    mutation fails with message [msg], then
    - if [msg] holds "Field 'addSubIssue' doesn't exist" or "Unknown field",
      the call returns what [link(parent, child, tracks)] returns and leaves
      the store that link leaves, with one more line on [stderr];
    - otherwise the call fails with the error of the mutation itself and the
      issues are untouched. *)
Theorem addSubIssue_fallback args w msg :
  is_Some (issues w !! subParentKey args) →
  is_Some (issues w !! subChildKey args) →
  nativeSubIssueFailure w = Some msg →
  let line := "Beta API failed: " +:+ msg in
  let unsupported :=
    includes msg "Field 'addSubIssue' doesn't exist" || includes msg "Unknown field" in
  (unsupported = true →
   addSubIssue args w =
   ((linkIssues (directLink args) w).1,
    logged line (linkIssues (directLink args) w).2)) ∧
  (unsupported = false →
   addSubIssue args w = (inl (GraphqlError msg), logged line w)).
Proof.
  intros [pi Hp] [ci Hc] Hn line unsupported.
  unfold addSubIssue, queryIssuePair, bind, queryIssue. simpl.
  unfold subParentKey, subChildKey in *. rewrite Hp. simpl. rewrite Hc. simpl.
  unfold tryCatch, addSubIssueMutation. rewrite Hn. simpl.
  fold unsupported. subst line. fold (logged ("Beta API failed: " +:+ msg) w).
  split; intros ->; [|done].
  rewrite logIndependent_linkIssues. unfold directLink, linkIssues. simpl.
  by rewrite toLowerCase_idemp.
Qed.

Lemma addSubIssue_fallback_witness :
  addSubIssue (mkSubIssueArgs "Octo" "demo" 100 101) exampleWorldNoNative =
  ((linkIssues (mkLinkArgs "Octo" "demo" 100 101 (Some tracks)) exampleWorldNoNative).1,
   logged "Beta API failed: Unknown field 'addSubIssue' on type 'Mutation'"
     (linkIssues (mkLinkArgs "Octo" "demo" 100 101 (Some tracks)) exampleWorldNoNative).2).
Proof.
  apply (addSubIssue_fallback (mkSubIssueArgs "Octo" "demo" 100 101) exampleWorldNoNative
           "Unknown field 'addSubIssue' on type 'Mutation'").
  - by eexists.
  - by eexists.
  - reflexivity.
  - reflexivity.
Defined.

(** C9.  Best-effort linking in [createIssue]: when the issue has been
    created, a parent number is given and the link step throws [e], the call
    still succeeds with the created issue, whose [linkError] field holds the
    message of [e]; no [parentIssue] field is set. *)
Theorem createIssue_link_failure args w created w1 p e w2 :
  createIssueUpstream (toLowerCase (createOwner args)) args w = (inr created, w1) →
  createParentIssueNumber args = Some p → p ≠ 0 →
  linkIssues (createLink args p created) w1 = (inl e, w2) →
  createIssue args w =
  (inr (CreatedIssueResult (withLinkError (errorMessage e) created)), w2) ∧
  linkError (withLinkError (errorMessage e) created) = Some (errorMessage e) ∧
  parentIssue (withLinkError (errorMessage e) created) = parentIssue created.
Proof.
  intros Hup Hp Hne Hlink. split; [|done].
  unfold createIssue, bind. rewrite Hup, Hp.
  rewrite bool_decide_eq_false_2 by done.
  unfold tryCatch, bind. unfold createLink in Hlink. by rewrite Hlink.
Qed.

Lemma createIssue_link_failure_witness :
  createIssue exampleCreate exampleWorld =
  (inr (CreatedIssueResult
          (withLinkError "MCP error -32600: Parent issue not found" exampleCreated)),
   (createIssueUpstream "octo" exampleCreate exampleWorld).2).
Proof.
  apply (createIssue_link_failure exampleCreate exampleWorld exampleCreated
           (createIssueUpstream "octo" exampleCreate exampleWorld).2 7
           (McpError InvalidRequest "Parent issue not found")
           (createIssueUpstream "octo" exampleCreate exampleWorld).2).
  - reflexivity.
  - reflexivity.
  - discriminate.
  - apply linkIssues_parent_missing. reflexivity.
Defined.

(** ** Replacing the parent block *)

Section ParentBlock.

#[local] Arguments append : simpl nomatch.
Implicit Types (s r t body title pre : string) (c : ascii) (n p : N).

Lemma getSubstitution_plain m before after h r :
  allChars notDollar h = true →
  getSubstitution m before after (h +:+ r) = h +:+ getSubstitution m before after r.
Proof.
  induction h as [|a h IH]; [done|]. simpl. intros [Ha Hh]%andb_prop.
  unfold notDollar in Ha. apply negb_true_iff, bool_decide_eq_false in Ha.
  rewrite decide_False by done. by rewrite IH.
Qed.

Lemma allChars_app P s r :
  allChars P s = true → allChars P r = true → allChars P (s +:+ r) = true.
Proof. intros Hs Hr. induction s; simpl in *; [done|]. apply andb_prop in Hs as [-> ?]; auto. Qed.

Lemma allChars_impl (P Q : ascii → bool) s :
  (∀ c, P c = true → Q c = true) → allChars P s = true → allChars Q s = true.
Proof.
  intros HPQ. induction s; simpl; [done|]. intros [?%HPQ ?]%andb_prop.
  rewrite IHs by done. by rewrite H.
Qed.

Lemma digit_notDollar c : isDigit c = true → notDollar c = true.
Proof. by destruct c as [[] [] [] [] [] [] [] []]. Qed.

(** The literal of the parent block does not overlap itself: it matches
    inside [u +:+ parentBlockHead +:+ r], before the end of [u], only if [u]
    holds the text [**Parent:**]. *)
Lemma parentBlockHead_no_overlap u r :
  u ≠ "" → includes u "**Parent:**" = false →
  stripPrefix parentBlockHead (u +:+ parentBlockHead +:+ r) = None.
Proof.
  intros Hu Hinc. unfold parentBlockHead, LF.
  do 17 (destruct u as [|? u];
         [try done; simpl; reflexivity
         |simpl; case_decide; [subst|reflexivity]]).
  exfalso. clear Hu. vm_compute in Hinc. discriminate.
Qed.
Lemma includes_suffix_false c s k :
  includes (String c s) k = false → includes s k = false.
Proof. by intros [_ ?]%includes_cons_false. Qed.

(** The leftmost parent block of a body whose text before the block does not
    hold [**Parent:**] is that block; it is replaced, up to the end of its
    line. *)
Lemma replaceParentBlock_first repl before pre c r :
  includes pre "**Parent:**" = false →
  isLineTerminator c = false →
  replaceParentBlock repl before (pre +:+ parentBlockHead +:+ String c r) =
  pre +:+
  getSubstitution (parentBlockHead +:+ (spanDot (String c r)).1) (before +:+ pre)
                  (spanDot (String c r)).2 repl +:+
  (spanDot (String c r)).2.
Proof.
  intros Hpre Hc. revert before. induction pre as [|a pre IH]; intros before.
  - rewrite append_nil_r.
    assert (parentBlockAt (parentBlockHead +:+ String c r) =
            Some (parentBlockHead +:+ (spanDot (String c r)).1, (spanDot (String c r)).2))
      as Hat.
    { unfold parentBlockAt. rewrite stripPrefix_app.
      destruct (spanDot (String c r)) as [t after] eqn:E. simpl in E. rewrite Hc in E.
      destruct (spanDot r). by injection E as <- <-. }
    change ("" +:+ ?x) with x.
    change (replaceParentBlock repl before (parentBlockHead +:+ String c r)) with
      (match parentBlockAt (parentBlockHead +:+ String c r) with
       | Some (m, after) => getSubstitution m before after repl +:+ after
       | None => String "010"
                   (replaceParentBlock repl (before +:+ String "010" EmptyString)
                      (LF +:+ "---" +:+ LF +:+ "**Parent:**" +:+ String c r))
       end).
    by rewrite Hat.
  - change (replaceParentBlock repl before (String a pre +:+ ?x)) with
      (match parentBlockAt (String a pre +:+ x) with
       | Some (m, after) => getSubstitution m before after repl +:+ after
       | None => String a (replaceParentBlock repl (before +:+ String a EmptyString)
                             (pre +:+ x))
       end).
    assert (parentBlockAt (String a pre +:+ parentBlockHead +:+ String c r) = None) as ->.
    { unfold parentBlockAt. by rewrite parentBlockHead_no_overlap. }
    rewrite IH by (by eapply includes_suffix_false).
    rewrite append_assoc. done.
Qed.
End ParentBlock.

(** ** The read path and the round trip *)

Section ReadPath.
#[local] Arguments append : simpl nomatch.
Implicit Types (s r body title : string) (n p c : N) (w : World).

(** The parent reference that [linkIssues] writes. *)
Lemma parentMarkerAt_number n r :
  noDigitAhead r → parentMarkerAt ("**Parent:** #" +:+ numberToString n +:+ r) = Some n.
Proof.
  intros Hr. unfold parentMarkerAt. rewrite stripPrefix_app, spanDigits_number by done.
  pose proof (numberToString_nonempty n).
  destruct (numberToString n) eqn:E; [done|]. by rewrite <- E, parseInt_number.
Qed.

Lemma parentMarkerAt_startsWith s n :
  parentMarkerAt s = Some n → startsWith "**Parent:**" s = true.
Proof.
  unfold parentMarkerAt. destruct (stripPrefix _ s) as [r|] eqn:E; [|done].
  apply stripPrefix_Some in E as ->. intros _. apply (startsWith_app "**Parent:**" (" #" +:+ r)).
Qed.

Lemma parentMatch_here s n : parentMarkerAt s = Some n → parentMatch s = Some n.
Proof. intros H. destruct s; cbn [parentMatch]; by rewrite H. Qed.

Lemma parentMatch_appended body n title :
  includes body "**Parent:**" = false →
  parentMatch
    (body +:+ LF +:+ LF +:+ "---" +:+ LF +:+ "**Parent:** #" +:+ numberToString n
          +:+ " - " +:+ title) = Some n.
Proof.
  intros Hbody. induction body as [|c body IH].
  - change (parentMatch ?s) with
      (parentMatch ("**Parent:** #" +:+ numberToString n +:+ " - " +:+ title)).
    by apply parentMatch_here, parentMarkerAt_number.
  - apply includes_cons_false in Hbody as [Hhere Hbody].
    change (parentMatch (String c body +:+ ?r)) with
      (match parentMarkerAt (String c body +:+ r) with
       | Some m => Some m
       | None => parentMatch (body +:+ r)
       end).
    destruct (parentMarkerAt _) as [m|] eqn:E; [|by apply IH].
    apply parentMarkerAt_startsWith in E.
    change (String c body +:+ LF +:+ ?x) with (String c body +:+ String "010" x) in E.
    rewrite startsWith_app_fresh in E; [congruence|].
    intros q1 q2 Hq. 
    repeat (destruct q1 as [|? q1]; [discriminate|injection Hq as _ Hq]).
    by destruct q1.
Qed.

Lemma parentMatch_updatedChildBody p title body :
  markable body → parentMatch (updatedChildBody p title body) = Some p.
Proof.
  intros [Hbody|(pre & c & r & -> & Hpre & Hc)]; unfold updatedChildBody.
  - rewrite Hbody. by apply parentMatch_appended.
  - rewrite includes_app_r
      by (by apply (includes_app_r (LF +:+ LF +:+ "---" +:+ LF)), includes_here).
    rewrite replaceParentBlock_first by done.
    set (h := LF +:+ LF +:+ "---" +:+ LF +:+ "**Parent:** #" +:+ numberToString p +:+ " - ").
    change (LF +:+ LF +:+ "---" +:+ LF +:+ "**Parent:** #" +:+ numberToString p +:+ " - " +:+ title)
      with (LF +:+ LF +:+ "---" +:+ LF +:+ "**Parent:** #" +:+ (numberToString p +:+ " - " +:+ title)).
    rewrite <- (append_assoc (numberToString p) " - " title).
    change (LF +:+ LF +:+ "---" +:+ LF +:+ "**Parent:** #" +:+ (numberToString p +:+ " - ") +:+ title)
      with ((LF +:+ LF +:+ "---" +:+ LF +:+ "**Parent:** #") +:+ (numberToString p +:+ " - ") +:+ title).
    rewrite <- (append_assoc _ (numberToString p +:+ " - ") title).
    rewrite getSubstitution_plain.
    2:{ apply (allChars_app _ (LF +:+ LF +:+ "---" +:+ LF +:+ "**Parent:** #")); [done|].
        apply allChars_app; [|done].
        eapply allChars_impl; [apply digit_notDollar|apply numberToString_digits]. }
    rewrite !append_assoc.
    apply (parentMatch_appended pre p). done.
Qed.
(** A body marked by a link can be marked again: linking the child anew, to
    the same or to another parent, keeps the round trip. *)
Lemma updatedChildBody_markable p title body :
  includes body "**Parent:**" = false → markable (updatedChildBody p title body).
Proof.
  intros Hbody. unfold updatedChildBody. rewrite Hbody. right.
  by exists body, " "%char, ("#" +:+ numberToString p +:+ " - " +:+ title).
Qed.





(** The children loop only reads the store: it appends the node of every
    number that resolves. *)
Lemma fetchChildren_pure owner repo ns acc w :
  fetchChildren owner repo ns acc w =
  (inr (acc ++ omap (λ n, relatedNode n <$> issues w !! (owner, repo, n)) ns), w).
Proof.
  revert acc; induction ns as [|n ns IH]; intros acc; simpl.
  - unfold ret. by rewrite List.app_nil_r.
  - unfold bind, tryCatch, queryIssue. simpl.
    destruct (issues w !! (owner, repo, n)) as [i|]; simpl; rewrite IH; [|done].
    by rewrite <- List.app_assoc.
Qed.

(** [getIssueHierarchy] as a function of the store. *)
Lemma getIssueHierarchy_pure args w i :
  let owner := toLowerCase (hierarchyOwner args) in
  let repo := hierarchyRepo args in
  issues w !! (owner, repo, issueNumber args) = Some i →
  getIssueHierarchy args w =
  (inr (HierarchyResult
          (mkHierarchy
             (mkNode (issueNumber args) (issueTitle i) (issueState i)
                     (take 10 (issueLabels i))
                     (detectIssueType (issueTitle i) (Some (issueBody i))))
             (match parentMatch (issueBody i) with
              | Some p => option_list (relatedNode p <$> issues w !! (owner, repo, p))
              | None => []
              end)
             (sortChildren
                (omap (λ n, relatedNode n <$> issues w !! (owner, repo, n))
                      (childNumbersOf (take 100 (issueComments i))))))), w).
Proof.
  intros owner repo Hi. unfold getIssueHierarchy, bind, queryIssue. simpl.
  fold owner repo. rewrite Hi. simpl.
  destruct (parentMatch (issueBody i)) as [p|]; simpl.
  - unfold tryCatch. simpl. destruct (issues w !! (owner, repo, p)); simpl;
      by rewrite fetchChildren_pure.
  - by rewrite fetchChildren_pure.
Qed.




End ReadPath.

(** ** The children of a view *)

Section ChildrenOfView.
Implicit Types (c : HierarchyNode) (w : World) (args : HierarchyArgs).

(** The children of a view are the discovered children, sorted. *)
Lemma getIssueHierarchy_sorted_children args w i :
  issues w !! (toLowerCase (hierarchyOwner args), hierarchyRepo args, issueNumber args)
    = Some i →
  ∃ h, getIssueHierarchy args w = (inr (HierarchyResult h), w) ∧
       children h = sortChildren (discoveredChildren args w).
Proof.
  intros Hi. rewrite (getIssueHierarchy_pure args w i Hi). eexists. split; [done|].
  cbn [children]. unfold discoveredChildren. cbv zeta. rewrite Hi.
  by rewrite fetchChildren_pure.
Qed.

(** C4.  Order and stability of the children of a view.  For every issue
    that resolves, [getIssueHierarchy] answers with a view whose children are
    the discovered children, all of them and no other, in ascending priority
    epic(0), feature(1), story(2), task(3), bug(4), documentation(5),
    unclassified(6); the children of any one priority follow each other as
    they were discovered. *)
Theorem children_sort_order_stable args w i :
  issues w !! (toLowerCase (hierarchyOwner args), hierarchyRepo args, issueNumber args)
    = Some i →
  ∃ h,
    getIssueHierarchy args w = (inr (HierarchyResult h), w) ∧
    typeOrder <$> [Some epic; Some feature; Some story; Some task; Some bug;
                   Some documentation; None] = [0; 1; 2; 3; 4; 5; 6]%Z ∧
    children h ≡ₚ discoveredChildren args w ∧
    StronglySorted (λ a b, (typeOrder (nodeType a) ≤ typeOrder (nodeType b))%Z)
                   (children h) ∧
    ∀ p : Z,
      filter (λ c, typeOrder (nodeType c) = p) (children h) =
      filter (λ c, typeOrder (nodeType c) = p) (discoveredChildren args w).
Proof.
  intros Hi. destruct (getIssueHierarchy_sorted_children args w i Hi) as (h & Hh & Hc).
  exists h. split; [done|]. split; [reflexivity|]. rewrite Hc. unfold sortChildren.
  split; [|split].
  - apply arraySort_perm.
  - by apply (arraySort_sorted compareChildren (typeOrder ∘ nodeType)).
  - intros p. by apply (arraySort_stable compareChildren (typeOrder ∘ nodeType)).
Qed.

Lemma children_sort_order_stable_witness :
  ∃ h,
    getIssueHierarchy (mkHierarchyArgs "Octo" "demo" 10) exampleWorldFamily =
      (inr (HierarchyResult h), exampleWorldFamily) ∧
    typeOrder <$> [Some epic; Some feature; Some story; Some task; Some bug;
                   Some documentation; None] = [0; 1; 2; 3; 4; 5; 6]%Z ∧
    children h ≡ₚ discoveredChildren (mkHierarchyArgs "Octo" "demo" 10) exampleWorldFamily ∧
    StronglySorted (λ a b, (typeOrder (nodeType a) ≤ typeOrder (nodeType b))%Z)
                   (children h) ∧
    ∀ p : Z,
      filter (λ c, typeOrder (nodeType c) = p) (children h) =
      filter (λ c, typeOrder (nodeType c) = p)
             (discoveredChildren (mkHierarchyArgs "Octo" "demo" 10) exampleWorldFamily).
Proof.
  apply (children_sort_order_stable (mkHierarchyArgs "Octo" "demo" 10) exampleWorldFamily
           (mkIssue "Release 2.0" "" OPEN [] [] None
              ["Tracks #11"; "Tracks #12, then Tracks #13"; "Tracks #14"; "Tracks #11"])).
  reflexivity.
Defined.

(** C3 (as amended).  When the children of an issue are discovered with the
    types bug, epic, task, epic, in that order, the view that
    [getIssueHierarchy] returns lists them as epic, epic, task, bug: the two
    epics keep their order of discovery and the task (3) comes before the bug
    (4). *)
Theorem children_sort_example args w i c1 c2 c3 c4 :
  issues w !! (toLowerCase (hierarchyOwner args), hierarchyRepo args, issueNumber args)
    = Some i →
  discoveredChildren args w = [c1; c2; c3; c4] →
  nodeType c1 = Some bug → nodeType c2 = Some epic →
  nodeType c3 = Some task → nodeType c4 = Some epic →
  ∃ h, getIssueHierarchy args w = (inr (HierarchyResult h), w) ∧
       children h = [c2; c4; c3; c1].
Proof.
  intros Hi Hd H1 H2 H3 H4.
  destruct (getIssueHierarchy_sorted_children args w i Hi) as (h & Hh & Hc).
  exists h. split; [done|]. rewrite Hc, Hd. by apply sortChildren_example.
Qed.

Lemma children_sort_example_witness :
  ∃ h,
    getIssueHierarchy (mkHierarchyArgs "Octo" "demo" 10) exampleWorldFamily =
      (inr (HierarchyResult h), exampleWorldFamily) ∧
    children h =
      [mkNode 12 "Epic: sign-in" OPEN ["epic"] (Some epic);
       mkNode 14 "Epic: billing" OPEN [] (Some epic);
       mkNode 13 "Refactor the session store" CLOSED [] (Some task);
       mkNode 11 "Fix the crash" OPEN ["bug"] (Some bug)].
Proof.
  apply (children_sort_example (mkHierarchyArgs "Octo" "demo" 10) exampleWorldFamily
           (mkIssue "Release 2.0" "" OPEN [] [] None
              ["Tracks #11"; "Tracks #12, then Tracks #13"; "Tracks #14"; "Tracks #11"])
           (mkNode 11 "Fix the crash" OPEN ["bug"] (Some bug))).
  - reflexivity.
  - reflexivity.
  - reflexivity.
  - reflexivity.
  - reflexivity.
  - reflexivity.
Defined.

(** Counterexample for C3 as the specification words it: issue 10 of
    [exampleWorldFamily] has its children discovered as bug, epic, task,
    epic, and the view [getIssueHierarchy] returns does not list them as
    epic, epic, bug, task. *)
Lemma children_sort_example_counterexample :
  let args := mkHierarchyArgs "octo" "demo" 10 in
  let listed :=
    (λ h, nodeType <$> children h) <$> hierarchyOf "octo" "demo" 10 exampleWorldFamily in
  nodeType <$> discoveredChildren args exampleWorldFamily =
    [Some bug; Some epic; Some task; Some epic] ∧
  listed = Some [Some epic; Some epic; Some task; Some bug] ∧
  listed ≠ Some [Some epic; Some epic; Some bug; Some task].
Proof. cbv zeta. split; [reflexivity|]. split; [reflexivity|]. discriminate. Qed.
End ChildrenOfView.

(** ** The task list of the parent *)

Section TaskList.
#[local] Arguments append : simpl nomatch.
Implicit Types (s r t d m item tail : string) (c x : ascii).

Lemma itemLine_spec s l rest :
  itemLine s = Some (l, rest) →
  ∃ x d t,
    l = itemText x d t +:+ LF ∧ s = l +:+ rest ∧ isBox x = true ∧
    d ≠ "" ∧ allChars isDigit d = true ∧ noDigitAhead (t +:+ LF) ∧ singleLine t = true.
Proof.
  unfold itemLine.
  destruct (stripPrefix "- [" s) as [[|x s1]|] eqn:E1; try done.
  apply stripPrefix_Some in E1 as ->.
  fold (isBox x). destruct (isBox x) eqn:Hx; [|done].
  destruct (stripPrefix "] #" s1) as [s2|] eqn:E2; [|done].
  apply stripPrefix_Some in E2 as ->.
  destruct (spanDigits s2) as [d s3] eqn:E3.
  apply spanDigits_spec in E3 as (-> & Hd & Hs3).
  destruct d as [|d0 d]; [done|].
  destruct (spanDot s3) as [t r] eqn:E4.
  apply spanDot_spec in E4 as (-> & Ht & Hr).
  destruct r as [|nl r]; [done|]. case_decide as Hnl; [|done]. subst nl.
  intros [= <- <-]. exists x, (String d0 d), t.
  split; [|split; [|split; [done|split; [done|split; [done|split; [|done]]]]]].
  - unfold itemText, LF. simpl. by rewrite !append_assoc.
  - unfold LF. simpl. by rewrite !append_assoc.
  - destruct t; simpl in *; done.
Qed.

Lemma itemLine_intro x d t rest :
  isBox x = true → d ≠ "" → allChars isDigit d = true →
  noDigitAhead (t +:+ LF) → singleLine t = true →
  itemLine (itemText x d t +:+ LF +:+ rest) = Some (itemText x d t +:+ LF, rest).
Proof.
  intros Hx Hd Hds Ht1 Ht2. unfold itemLine, itemText.
  change (stripPrefix "- [" _) with (Some (String x ("] #" +:+ d +:+ t) +:+ LF +:+ rest)).
  change (String x ?a +:+ ?b) with (String x (a +:+ b)). cbv iota beta.
  fold (isBox x). rewrite Hx.
  rewrite !append_assoc. rewrite stripPrefix_app.
  rewrite spanDigits_intro; [|done|].
  2:{ destruct t; simpl in *; done. }
  destruct d as [|d0 d]; [done|].
  unfold LF. change (String "010" "" +:+ rest) with (String "010" rest).
  rewrite spanDot_intro by done.
  rewrite decide_True by done. do 2 f_equal. simpl. by rewrite !append_assoc.
Qed.

Lemma itemLine_shorter s l rest :
  itemLine s = Some (l, rest) → (String.length rest < String.length s)%nat.
Proof.
  intros (x & d & t & -> & -> & _)%itemLine_spec.
  rewrite !append_length. unfold itemText. simpl. lia.
Qed.

(** The repetition never runs out of fuel: any fuel that reaches the length
    of the text gives the same lines. *)
Lemma itemLines_fuel fuel fuel' s :
  (String.length s ≤ fuel)%nat → (String.length s ≤ fuel')%nat →
  itemLines fuel s = itemLines fuel' s.
Proof.
  revert fuel' s; induction fuel as [|fuel IH]; intros fuel' s Hf Hf'.
  - destruct s; [|simpl in Hf; lia]. by destruct fuel'.
  - destruct fuel' as [|fuel'].
    + destruct s; [done|simpl in Hf'; lia].
    + simpl. destruct (itemLine s) as [[l rest]|] eqn:E; [|done].
      apply itemLine_shorter in E. rewrite (IH fuel' rest) by lia. done.
Qed.
Lemma digit_not_space c : isDigit c = true → isWhiteSpace c = false.
Proof. by destruct c as [[] [] [] [] [] [] [] []]. Qed.

Lemma trimEnd_cons c s :
  isWhiteSpace c = false → trimEnd (String c s) = String c (trimEnd s).
Proof. intros Hc. simpl. rewrite Hc. by destruct (trimEnd s). Qed.

Lemma trimEnd_app s r :
  trimEnd (s +:+ r) = match trimEnd r with EmptyString => trimEnd s | t => s +:+ t end.
Proof.
  induction s as [|c s IH]; simpl.
  - by destruct (trimEnd r).
  - rewrite IH. destruct (trimEnd r) as [|a t]; [done|]. by destruct s.
Qed.

Lemma trimEnd_digits d : allChars isDigit d = true → trimEnd d = d.
Proof.
  induction d as [|c d IH]; [done|]. intros [Hc Hd]%andb_prop.
  by rewrite trimEnd_cons, IH by (done || by apply digit_not_space).
Qed.

Lemma trimEnd_allChars P s : allChars P s = true → allChars P (trimEnd s) = true.
Proof.
  induction s as [|c s IH]; [done|]. simpl. intros [Hc Hs]%andb_prop.
  specialize (IH Hs). destruct (trimEnd s) as [|a t].
  - destruct (isWhiteSpace c); simpl; by rewrite ?Hc.
  - simpl in *. by rewrite Hc, IH.
Qed.

Lemma trimEnd_noDigitAhead t :
  noDigitAhead (t +:+ LF) → noDigitAhead (trimEnd t +:+ LF).
Proof.
  destruct t as [|c t]; [done|]. simpl. intros Hc.
  destruct (trimEnd t); [destruct (isWhiteSpace c)|]; simpl; done.
Qed.

(** Trimming an item keeps its box and its number. *)
Lemma trimEnd_item x d t :
  d ≠ "" → allChars isDigit d = true →
  trimEnd (itemText x d t +:+ LF) = itemText x d (trimEnd t).
Proof.
  intros Hd Hds. unfold itemText.
  change ("- [" +:+ String x ("] #" +:+ d +:+ t)) with (("- [" +:+ String x "] #") +:+ d +:+ t).
  change ("- [" +:+ String x ("] #" +:+ d +:+ trimEnd t))
    with (("- [" +:+ String x "] #") +:+ d +:+ trimEnd t).
  set (P := "- [" +:+ String x "] #").
  rewrite !append_assoc.
  rewrite (trimEnd_app P), (trimEnd_app d), (trimEnd_app t).
  change (trimEnd LF) with "". rewrite (trimEnd_digits d) by done.
  destruct (trimEnd t) as [|a t'].
  - rewrite append_nil_r. by destruct d.
  - by destruct d.
Qed.

Lemma itemLines_head fuel s :
  itemLines fuel s = "" ∨ ∃ r, itemLines fuel s = String "-" r.
Proof.
  destruct fuel as [|fuel]; simpl; [by left|].
  destruct (itemLine s) as [[l rest]|] eqn:E; [|by left].
  apply itemLine_spec in E as (x & d & t & -> & _). right. by eexists.
Qed.

Lemma taskBlock_Some s m :
  taskBlock s = Some m →
  ∃ l rest m', itemLine s = Some (l, rest) ∧ m = l +:+ m' ∧
               (m' = "" ∨ ∃ r, m' = String "-" r).
Proof.
  unfold taskBlock. destruct s as [|c s]; [done|].
  cbn [String.length itemLines].
  destruct (itemLine (String c s)) as [[l rest]|] eqn:E; [|done].
  intros Hm. exists l, rest, (itemLines (String.length s) rest).
  split; [done|]. split; [|apply itemLines_head].
  destruct (l +:+ _); congruence.
Qed.

Lemma taskBlock_intro s l rest : itemLine s = Some (l, rest) → is_Some (taskBlock s).
Proof.
  intros E. unfold taskBlock. destruct s as [|c s]; [done|].
  cbn [String.length itemLines]. rewrite E.
  apply itemLine_spec in E as (x & d & t & -> & _). by eexists.
Qed.

(** What replaces a block still starts with an item on a line of its own. *)
Lemma taskBlock_trimEnd s m tail :
  taskBlock s = Some m →
  is_Some (taskBlock (trimEnd m +:+ LF +:+ tail)) ∧ ∃ r, trimEnd m = String "-" r.
Proof.
  intros (l & rest & m' & E & -> & Hm')%taskBlock_Some.
  apply itemLine_spec in E as (x & d & t & -> & _ & Hx & Hd & Hds & Ht1 & Ht2).
  destruct Hm' as [->|[r ->]].
  - rewrite append_nil_r, trimEnd_item by done. split; [|by eexists].
    eapply taskBlock_intro, itemLine_intro; try done.
    + by apply trimEnd_noDigitAhead.
    + by apply trimEnd_allChars.
  - rewrite trimEnd_app, trimEnd_cons by done.
    split; [|by eexists].
    rewrite !append_assoc.
    eapply taskBlock_intro, itemLine_intro; done.
Qed.

Lemma taskListAt_trimEnd ls s m tail :
  taskListAt ls s = Some m → is_Some (taskListAt ls (trimEnd m +:+ LF +:+ tail)).
Proof.
  unfold taskListAt at 1.
  destruct (if ls then taskBlock s else None) as [m0|] eqn:E.
  - intros [= <-]. destruct ls; [|done].
    destruct (taskBlock_trimEnd s m0 tail E) as [[m1 Hm1] _].
    unfold taskListAt. rewrite Hm1. by eexists.
  - destruct s as [|c s]; [done|]. case_decide as Hc; [|done]. subst c.
    destruct (taskBlock s) as [m0|] eqn:E0; [|done]. intros [= <-].
    destruct (taskBlock_trimEnd s m0 tail E0) as [[m1 Hm1] [r Hr]].
    change (String "010" m0) with (LF +:+ m0).
    rewrite trimEnd_app, Hr, <- Hr.
    change ((LF +:+ trimEnd m0) +:+ LF +:+ tail)
      with (String "010" (trimEnd m0 +:+ LF +:+ tail)).
    unfold taskListAt.
    assert (taskBlock (String "010" (trimEnd m0 +:+ LF +:+ tail)) = None) as ->.
    { unfold taskBlock. by cbn [String.length itemLines]. }
    rewrite decide_True by done. rewrite Hm1.
    destruct ls; by eexists.
Qed.

Lemma testTaskListFrom_here ls s m : taskListAt ls s = Some m → testTaskListFrom ls s = true.
Proof. intros H. destruct s; cbn [testTaskListFrom]; by rewrite H. Qed.

Lemma testTaskListFrom_cons ls c s :
  testTaskListFrom (isLineTerminator c) s = true → testTaskListFrom ls (String c s) = true.
Proof. intros H. cbn [testTaskListFrom]. by destruct (taskListAt ls _). Qed.

(** After the replacement the text still holds a task list. *)
Lemma testTaskList_replace item ls s :
  testTaskListFrom ls s = true →
  testTaskListFrom ls (replaceTaskListsFrom item 0 ls s) = true.
Proof.
  revert ls; induction s as [|c s IH]; intros ls; [done|].
  cbn [testTaskListFrom replaceTaskListsFrom].
  destruct (taskListAt ls (String c s)) as [m|] eqn:E.
  - intros _. destruct (taskListAt_trimEnd ls _ m
      (item +:+ LF +:+ replaceTaskListsFrom item (String.length m - 1) (isLineTerminator c) s) E)
      as [m1 Hm1].
    by eapply testTaskListFrom_here.
  - intros H. by apply testTaskListFrom_cons, IH.
Qed.

(** After the replacement the text holds whatever the new item holds. *)
Lemma includes_replace item k ls s :
  includes item k = true →
  testTaskListFrom ls s = true →
  includes (replaceTaskListsFrom item 0 ls s) k = true.
Proof.
  intros Hk. revert ls; induction s as [|c s IH]; intros ls; [by destruct ls|].
  cbn [testTaskListFrom replaceTaskListsFrom].
  destruct (taskListAt ls (String c s)) as [m|] eqn:E.
  - intros _. by apply includes_app_r, includes_app_r, includes_app_l.
  - intros H. by apply includes_cons, IH.
Qed.
End TaskList.

(** ** Linking twice *)

Section Idempotence.
#[local] Arguments append : simpl nomatch.
Implicit Types (s r t d m item tail body title : string) (c x : ascii) (n : N).

Lemma childTaskItem_itemText n title :
  childTaskItem n title = itemText " " (numberToString n) (" " +:+ title).
Proof. done. Qed.

Lemma itemLine_childTaskItem n title rest :
  singleLine title = true →
  itemLine (childTaskItem n title +:+ LF +:+ rest) =
  Some (childTaskItem n title +:+ LF, rest).
Proof.
  intros Ht. rewrite childTaskItem_itemText.
  apply itemLine_intro; try done.
  - apply numberToString_nonempty.
  - apply numberToString_digits.
Qed.

Lemma includes_childTaskItem n title :
  includes (childTaskItem n title) ("#" +:+ numberToString n) = true.
Proof.
  unfold childTaskItem.
  change ("- [ ] #" +:+ ?r) with ("- [ ] " +:+ ("#" +:+ r)).
  rewrite <- (append_assoc "#"). apply includes_app_here.
Qed.

(** A fresh "### Tasks" section is a task list. *)
Lemma testTaskList_tasksSection n title body :
  singleLine title = true →
  testTaskList ("### Tasks" +:+ LF +:+ childTaskItem n title +:+ LF +:+ LF +:+ body) = true.
Proof.
  intros Ht. unfold testTaskList.
  do 9 apply testTaskListFrom_cons.
  destruct (taskBlock_intro _ _ _ (itemLine_childTaskItem n title (LF +:+ body) Ht))
    as [m Hm].
  apply (testTaskListFrom_here _ _ (String "010" m)).
  change (String "010"%char <$> taskBlock (childTaskItem n title +:+ LF +:+ LF +:+ body)
          = Some (String "010" m)).
  by rewrite Hm.
Qed.

(** Idempotence of the augmentation of the parent's body. *)
Lemma updatedParentBody_idemp n title body :
  singleLine title = true →
  updatedParentBody n title (updatedParentBody n title body) =
  updatedParentBody n title body.
Proof.
  intros Ht. unfold updatedParentBody at 2. fold (childTaskItem n title).
  destruct (testTaskList body) eqn:Htest.
  - destruct (includes body _) eqn:Hinc; cbn [negb].
    + unfold updatedParentBody. by rewrite Htest, Hinc.
    + unfold updatedParentBody. fold (childTaskItem n title).
      unfold replaceTaskLists, testTaskList in *.
      rewrite (testTaskList_replace (childTaskItem n title) true body Htest).
      rewrite (includes_replace (childTaskItem n title) _ true body
                 (includes_childTaskItem n title) Htest).
      by rewrite Htest, Hinc.
  - unfold updatedParentBody. fold (childTaskItem n title).
    rewrite !append_assoc.
    rewrite testTaskList_tasksSection by done.
    rewrite (includes_app_r "### Tasks")
      by (apply (includes_app_r LF), includes_app_l, includes_childTaskItem).
    by rewrite Htest.
Qed.

Lemma splitLines_line l r :
  singleLine l = true → splitLines (l +:+ LF +:+ r) = l :: splitLines r.
Proof.
  intros Hl. induction l as [|c l IH]; [done|].
  unfold singleLine in *. simpl in Hl. apply andb_prop in Hl as [Hc Hl].
  change (splitLines (String c l +:+ ?r')) with
    (if bool_decide (c = "010"%char) then EmptyString :: splitLines (l +:+ r')
     else match splitLines (l +:+ r') with
          | l0 :: ls => String c l0 :: ls
          | [] => [String c EmptyString]
          end).
  rewrite bool_decide_eq_false_2 by (by intros ->). by rewrite IH.
Qed.

Lemma referencesIssue_childTaskItem n title :
  referencesIssue n (childTaskItem n title) = true.
Proof.
  unfold referencesIssue, childTaskItem.
  change (stripPrefix "- [" _) with
    (Some (String " " (("] #" +:+ numberToString n) +:+ " " +:+ title))).
  cbv iota beta. by rewrite stripPrefix_app.
Qed.

(** A fresh "### Tasks" section adds exactly one checklist line for the child. *)
Lemma checklistLines_tasksSection n title body :
  singleLine title = true →
  checklistLines n ("### Tasks" +:+ LF +:+ childTaskItem n title +:+ LF +:+ LF +:+ body) =
  S (checklistLines n body).
Proof.
  intros Ht. unfold checklistLines.
  rewrite (splitLines_line "### Tasks") by done.
  rewrite (splitLines_line (childTaskItem n title)).
  2:{ unfold childTaskItem, singleLine. 
      pose proof (numberToString_digits n) as Hd.
      assert (∀ d r, allChars isDigit d = true →
                allChars (λ c, negb (isLineTerminator c)) r = true →
                allChars (λ c, negb (isLineTerminator c)) (d +:+ r) = true) as Happ.
      { intros d r Hds Hr. induction d as [|a d IH]; [done|].
        simpl in *. apply andb_prop in Hds as [Ha Hds]. rewrite IH by done.
        by destruct a as [[] [] [] [] [] [] [] []]. }
      change (allChars (λ c, negb (isLineTerminator c))
                (numberToString n +:+ " " +:+ title) = true).
      by apply Happ. }
  change (splitLines (LF +:+ body)) with (EmptyString :: splitLines body).
  rewrite !filter_cons, referencesIssue_childTaskItem.
  rewrite decide_False by done. rewrite decide_True by done.
  by rewrite decide_False by done.
Qed.

End Idempotence.

Section LinkTwice.

#[local] Arguments append : simpl nomatch.

(** X28.  Linking twice.  For two distinct existing issues and a child title
    on one line, a second [link(parent, child, tracks)] succeeds and leaves
    the parent's body exactly as the first call left it: the containment
    check finds the number of the child and nothing is added.  When the body
    had no task-list block and no checklist line for the child before the
    first call, it holds exactly one such line after the two calls. *)
Theorem linkIssues_twice_parent_body owner repo p c lt w pi ci :
  let args := mkLinkArgs owner repo p c lt in
  issues w !! parentKey args = Some pi →
  issues w !! childKey args = Some ci →
  p ≠ c →
  default tracks lt = tracks →
  singleLine (issueTitle ci) = true →
  ∃ r1 w1 r2 w2 pi1 pi2,
    linkIssues args w = (inr r1, w1) ∧ linkIssues args w1 = (inr r2, w2) ∧
    issues w1 !! parentKey args = Some pi1 ∧ issues w2 !! parentKey args = Some pi2 ∧
    issueBody pi2 = issueBody pi1 ∧
    (testTaskList (issueBody pi) = false → checklistLines c (issueBody pi) = 0%nat →
     checklistLines c (issueBody pi2) = 1%nat).
Proof.
  intros args Hp Hc Hne Ht Htitle.
  pose proof (linkIssues_tracks args w pi ci Hp Hc Hne Ht) as Hlink1.
  set (w1 := setIssues _ w) in Hlink1.
  set (pi1 := withBody _ (withComment _ pi)) in w1.
  set (ci1 := withBody _ (withComment _ ci)) in w1.
  assert (issues w1 !! parentKey args = Some pi1) as Hp1 by apply lookup_insert_eq.
  assert (issues w1 !! childKey args = Some ci1) as Hc1.
  { unfold w1, setIssues; simpl.
    rewrite lookup_insert_ne by (unfold parentKey, childKey; simpl; congruence).
    apply lookup_insert_eq. }
  pose proof (linkIssues_tracks args w1 pi1 ci1 Hp1 Hc1 Hne Ht) as Hlink2.
  set (w2 := setIssues _ w1) in Hlink2.
  set (pi2 := withBody _ (withComment _ pi1)) in w2.
  eexists _, w1, _, w2, pi1, pi2.
  split; [exact Hlink1|]. split; [exact Hlink2|]. split; [exact Hp1|].
  split; [apply lookup_insert_eq|].
  assert (issueBody pi2 = issueBody pi1) as Hbody.
  { change (updatedParentBody c (issueTitle ci)
              (updatedParentBody c (issueTitle ci) (issueBody pi)) =
            updatedParentBody c (issueTitle ci) (issueBody pi)).
    by apply updatedParentBody_idemp. }
  split; [exact Hbody|]. intros Hfresh Hnone. rewrite Hbody.
  change (issueBody pi1) with (updatedParentBody c (issueTitle ci) (issueBody pi)).
  unfold updatedParentBody. rewrite Hfresh.
  fold (childTaskItem c (issueTitle ci)).
  rewrite !append_assoc, checklistLines_tasksSection by done. by rewrite Hnone.
Qed.

Lemma linkIssues_twice_parent_body_witness :
  ∃ r1 w1 r2 w2 pi1 pi2,
    linkIssues (mkLinkArgs "octo" "demo" 100 101 None) exampleWorld = (inr r1, w1) ∧
    linkIssues (mkLinkArgs "octo" "demo" 100 101 None) w1 = (inr r2, w2) ∧
    issues w1 !! ("octo", "demo", 100) = Some pi1 ∧
    issues w2 !! ("octo", "demo", 100) = Some pi2 ∧
    issueBody pi2 = issueBody pi1 ∧
    checklistLines 101 (issueBody pi2) = 1%nat.
Proof.
  destruct (linkIssues_twice_parent_body "octo" "demo" 100 101 None exampleWorld
              (mkIssue "Epic: sign-in" "Scope of the work." OPEN ["epic"] [] None [])
              (mkIssue "Fix login redirect" "" OPEN [] [] None [])
              eq_refl eq_refl ltac:(discriminate) eq_refl eq_refl)
    as (r1 & w1 & r2 & w2 & pi1 & pi2 & H1 & H2 & H3 & H4 & H5 & H6).
  exists r1, w1, r2, w2, pi1, pi2.
  repeat (split; [assumption|]). apply H6; reflexivity.
Defined.

(** C5 at a failing input.  The body of the parent holds two task-list
    blocks and no line for the child.  The pattern of the task list is global,
    so the replacement that is to "find the last task item and add after it"
    runs on each block: the first call appends a line for the child to both
    blocks, the second call changes nothing, and two checklist lines for the
    child remain where the specification says one. *)
Theorem link_twice_two_task_lists :
  let args := mkLinkArgs "octo" "demo" 100 101 (Some tracks) in
  let linked :=
    inr (LinkResult true (mkIssueRef 100 "Epic: sign-in")
           (mkIssueRef 101 "Fix login redirect") tracks) in
  let body :=
    "- [ ] #5 Design" +:+ LF +:+ LF +:+ "Later:" +:+ LF +:+ "- [ ] #6 Rollout" +:+ LF in
  let body' :=
    "- [ ] #5 Design" +:+ LF +:+ "- [ ] #101 Fix login redirect" +:+ LF +:+
    LF +:+ "Later:" +:+ LF +:+ "- [ ] #6 Rollout" +:+ LF +:+
    "- [ ] #101 Fix login redirect" +:+ LF in
  parentBodyAfter 0 args exampleWorldTwoLists = Some body ∧
  checklistLines 101 body = 0%nat ∧
  includes body ("#" +:+ numberToString 101) = false ∧
  (linkIssues args exampleWorldTwoLists).1 = linked ∧
  (linkIssues args (linkIssues args exampleWorldTwoLists).2).1 = linked ∧
  parentBodyAfter 1 args exampleWorldTwoLists = Some body' ∧
  parentBodyAfter 2 args exampleWorldTwoLists = Some body' ∧
  checklistLines 101 body' = 2%nat.
Proof. cbv zeta. repeat split; vm_compute; reflexivity. Qed.

(** Without a task list in the body, a "### Tasks" section with one
    unchecked line for the child is put in front of the body. *)
Lemma updatedParentBody_fresh n title body :
  testTaskList body = false →
  updatedParentBody n title body =
  "### Tasks" +:+ LF +:+ childTaskItem n title +:+ LF +:+ LF +:+ body.
Proof.
  intros H. unfold updatedParentBody. rewrite H.
  fold (childTaskItem n title). by rewrite !append_assoc.
Qed.

(** With one task list that does not mention the child, the line of the
    child is appended to the list. *)
Example updatedParentBody_append :
  updatedParentBody 101 "Fix login redirect"
    ("Plan" +:+ LF +:+ "- [x] #5 Design" +:+ LF +:+ "- [ ] #6 Rollout  " +:+ LF +:+ "Notes") =
  "Plan" +:+ LF +:+ "- [x] #5 Design" +:+ LF +:+ "- [ ] #6 Rollout" +:+ LF +:+
  "- [ ] #101 Fix login redirect" +:+ LF +:+ "Notes".
Proof. reflexivity. Qed.

(** C6 at a failing input.  The parent's body is one task list with the single
    item [#1010]; that block does not reference child [#101], yet the test
    [includes('#101')] on the whole body succeeds on the text [#1010] and the
    body is left as it is: no line for the child is appended. *)
Theorem task_list_reference_check_by_substring :
  let body := "- [ ] #1010 Release notes" +:+ LF in
  let args := mkLinkArgs "octo" "demo" 100 101 (Some tracks) in
  testTaskList body = true ∧
  checklistLines 101 body = 0%nat ∧
  includes body ("#" +:+ numberToString 101) = true ∧
  updatedParentBody 101 "Fix login redirect" body = body ∧
  parentBodyAfter 0 args exampleWorldTracking = Some body ∧
  (linkIssues args exampleWorldTracking).1 =
    inr (LinkResult true (mkIssueRef 100 "Epic: sign-in")
           (mkIssueRef 101 "Fix login redirect") tracks) ∧
  parentBodyAfter 1 args exampleWorldTracking = Some body.
Proof. cbv zeta. repeat split; vm_compute; reflexivity. Qed.

End LinkTwice.

(** ** More of the classifier *)

Section ClassifierMore.
#[local] Arguments append : simpl nomatch.
Implicit Types (title text s k : string) (body : option string) (t : IssueType).

Lemma toLowerCase_app s r : toLowerCase (s +:+ r) = toLowerCase s +:+ toLowerCase r.
Proof. induction s as [|c s IH]; simpl; [done|]. by rewrite IH. Qed.

(** X1.  The classifier does not see case: two issues whose titles, and whose
    bodies, are equal up to case get the same type. *)
Theorem detectIssueType_case_insensitive title title' body body' :
  toLowerCase title = toLowerCase title' →
  toLowerCase (default "" body) = toLowerCase (default "" body') →
  detectIssueType title body = detectIssueType title' body'.
Proof.
  intros Ht Hb. unfold detectIssueType, combinedText.
  by rewrite !toLowerCase_app, Ht, Hb.
Qed.

Lemma detectIssueType_case_insensitive_witness :
  detectIssueType "EPIC: Sign-In" (Some "All Of It") =
  detectIssueType "epic: sign-in" (Some "all of it").
Proof. by apply detectIssueType_case_insensitive. Defined.

(** X2.  The classifier answers [None] exactly when the text holds none of the
    keywords, and a type it answers always has one of its keywords in the
    text. *)
Theorem detectIssueType_sound_complete title body :
  (detectIssueType title body = None ↔
   ∀ t, hasKeyword (combinedText title body) t = false) ∧
  (∀ t, detectIssueType title body = Some t →
        hasKeyword (combinedText title body) t = true).
Proof.
  rewrite detectIssueType_cascade. cbv zeta.
  set (text := combinedText title body). split.
  - split.
    + intros H t. destruct t;
        repeat (match type of H with
                | (if hasKeyword text ?t' then _ else _) = _ =>
                    destruct (hasKeyword text t') eqn:?; [discriminate|]
                end); done.
    + intros H. by rewrite !H.
  - intros t H.
    repeat (match type of H with
            | (if hasKeyword text ?t' then _ else _) = _ =>
                destruct (hasKeyword text t') eqn:?; [by injection H as <-|]
            end). discriminate.
Qed.

(** X3.  Automatic labelling keeps the caller's labels in front, adds at
    most the name of the detected type, adds it unless it is there already,
    and is idempotent. *)
Theorem autoLabelsOf_spec (labels : list string) (issueType : option IssueType) :
  labels `prefix_of` autoLabelsOf labels issueType ∧
  (length (autoLabelsOf labels issueType) ≤ S (length labels))%nat ∧
  (∀ t, issueType = Some t → typeName t ∈ autoLabelsOf labels issueType) ∧
  (NoDup labels → NoDup (autoLabelsOf labels issueType)) ∧
  autoLabelsOf (autoLabelsOf labels issueType) issueType = autoLabelsOf labels issueType.
Proof.
  unfold autoLabelsOf. destruct issueType as [t|];
    [|split; [done|]; split; [lia|]; split; [by intros ? [=]|]; done].
  case_bool_decide as Hin.
  - rewrite bool_decide_eq_true_2 by done.
    split; [done|]. split; [lia|]. split; [by intros ? [= <-]|]. done.
  - rewrite bool_decide_eq_true_2 by (apply elem_of_app; right; by constructor).
    split; [by apply prefix_app_r|]. split; [rewrite length_app; simpl; lia|].
    split; [intros ? [= <-]; apply elem_of_app; right; by constructor|].
    split; [|done].
    intros Hnd. apply NoDup_app. split; [done|]. split; [|apply NoDup_singleton].
    intros x Hx ->%list_elem_of_singleton. done.
Qed.
End ClassifierMore.

(** ** The hierarchy view *)

Section HierarchyView.
Implicit Types (w : World) (args : HierarchyArgs) (i : Issue) (n : N).

Lemma getIssueHierarchy_missing args w :
  issues w !! (toLowerCase (hierarchyOwner args), hierarchyRepo args, issueNumber args) = None →
  getIssueHierarchy args w = (inl (McpError InvalidRequest "Issue not found"), w).
Proof. intros H. unfold getIssueHierarchy, bind, queryIssue. simpl. by rewrite H. Qed.

(** X4.  A hierarchy call never writes to the store.  Its only failure is
    'Issue not found', raised exactly when the requested issue does not
    resolve: a parent or a child that does not resolve is left out of the view
    instead. *)
Theorem getIssueHierarchy_read_only args w :
  let key := (toLowerCase (hierarchyOwner args), hierarchyRepo args, issueNumber args) in
  (getIssueHierarchy args w).2 = w ∧
  ((getIssueHierarchy args w).1 = inl (McpError InvalidRequest "Issue not found") ↔
   issues w !! key = None) ∧
  (is_Some (issues w !! key) ↔ ∃ h, (getIssueHierarchy args w).1 = inr (HierarchyResult h)).
Proof.
  intros key. destruct (issues w !! key) as [i|] eqn:Hi.
  - rewrite (getIssueHierarchy_pure args w i Hi). simpl.
    split; [done|]. split; [split; discriminate|]. split; eauto.
  - rewrite (getIssueHierarchy_missing args w Hi). simpl.
    split; [done|]. split; [done|]. split; [by intros [? [=]]|by intros [? [=]]].
Qed.

Lemma setAdd_NoDup n (s : list N) : NoDup s → NoDup (setAdd n s).
Proof.
  intros H. unfold setAdd. case_decide; [done|].
  apply NoDup_app. split; [done|]. split; [|apply NoDup_singleton].
  by intros x Hx ->%list_elem_of_singleton.
Qed.

Lemma childNumbersOf_NoDup comments : NoDup (childNumbersOf comments).
Proof.
  unfold childNumbersOf.
  assert (∀ (ns acc : list N), NoDup acc → NoDup (foldl (λ s n, setAdd n s) acc ns)) as Hin.
  { induction ns as [|n ns IH]; intros acc Hacc; simpl; [done|]. by apply IH, setAdd_NoDup. }
  assert (∀ acc : list N, NoDup acc →
          NoDup (foldl (λ childNumbers comment,
                          foldl (λ childNumbers n, setAdd n childNumbers) childNumbers
                                (execTracks 0 comment)) acc comments)) as Hout.
  { induction comments as [|c cs IH]; intros acc Hacc; simpl; [done|]. by apply IH, Hin. }
  apply Hout. constructor.
Qed.

Lemma relatedNodes_numbers owner repo w (ns : list N) :
  nodeNumber <$> omap (λ n, relatedNode n <$> issues w !! (owner, repo, n)) ns `sublist_of` ns.
Proof.
  induction ns as [|n ns IH]; simpl; [done|].
  destruct (issues w !! (owner, repo, n)); simpl; by constructor.
Qed.

Lemma relatedNodes_resolve owner repo w (ns : list N) node :
  node ∈ omap (λ n, relatedNode n <$> issues w !! (owner, repo, n)) ns →
  nodeNumber node ∈ ns ∧
  ∃ i, issues w !! (owner, repo, nodeNumber node) = Some i ∧
       node = relatedNode (nodeNumber node) i.
Proof.
  intros [n [Hn Hnode]]%list_elem_of_omap.
  destruct (issues w !! (owner, repo, n)) as [i|] eqn:Hi; [|done].
  injection Hnode as <-. simpl. eauto.
Qed.

(** X5.  Shape of a hierarchy view.  The current node carries the requested
    number; there is at most one parent; no issue is listed twice among the
    children, however often the comments name it; and every parent or child
    listed is an issue of the same repository, shown with its own title,
    state and first five labels. *)
Theorem hierarchy_well_formed owner repo n w h :
  hierarchyOf owner repo n w = Some h →
  nodeNumber (current h) = n ∧
  (length (parents h) ≤ 1)%nat ∧
  NoDup (nodeNumber <$> children h) ∧
  ∀ node, node ∈ parents h ++ children h →
    ∃ i, issues w !! (toLowerCase owner, repo, nodeNumber node) = Some i ∧
         node = relatedNode (nodeNumber node) i.
Proof.
  unfold hierarchyOf.
  destruct (issues w !! (toLowerCase owner, repo, n)) as [i|] eqn:Hi.
  - rewrite (getIssueHierarchy_pure (mkHierarchyArgs owner repo n) w i Hi). simpl.
    intros [= <-]. cbn [current parents children]. split; [done|]. split; [|split].
    + destruct (parentMatch (issueBody i)) as [p|]; [|simpl; lia].
      destruct (issues w !! (toLowerCase owner, repo, p)); simpl; lia.
    + unfold sortChildren. rewrite arraySort_perm.
      eapply sublist_NoDup; [apply childNumbersOf_NoDup|apply relatedNodes_numbers].
    + intros node [Hp|Hc]%elem_of_app.
      * destruct (parentMatch (issueBody i)) as [p|]; [|by apply elem_of_nil in Hp].
        destruct (issues w !! (toLowerCase owner, repo, p)) as [pi|] eqn:Hpi;
          [|by apply elem_of_nil in Hp].
        apply list_elem_of_singleton in Hp as ->. simpl. eauto.
      * unfold sortChildren in Hc. rewrite arraySort_perm in Hc.
        by apply relatedNodes_resolve in Hc as [_ ?].
  - rewrite (getIssueHierarchy_missing (mkHierarchyArgs owner repo n) w Hi). done.
Qed.

Lemma hierarchy_well_formed_witness :
  ∃ h, hierarchyOf "Octo" "demo" 100 exampleWorldThree = Some h ∧
       nodeNumber (current h) = 100 ∧
       (length (parents h) ≤ 1)%nat ∧
       NoDup (nodeNumber <$> children h) ∧
       ∀ node, node ∈ parents h ++ children h →
         ∃ i, issues exampleWorldThree !! (toLowerCase "Octo", "demo", nodeNumber node) = Some i ∧
              node = relatedNode (nodeNumber node) i.
Proof.
  eexists. split; [reflexivity|].
  apply (hierarchy_well_formed "Octo" "demo" 100 exampleWorldThree). reflexivity.
Defined.

Lemma relatedNode_fields n i i' :
  hierarchyFields i = hierarchyFields i' → relatedNode n i = relatedNode n i'.
Proof. unfold hierarchyFields, relatedNode. intros H. injection H as H1 H2 H3 H4 H5. by rewrite H1, H3, H4. Qed.

(** A hierarchy view is a function of [hierarchyFields] of the issues. *)
Lemma getIssueHierarchy_view args w w' :
  (∀ k, hierarchyFields <$> issues w !! k = hierarchyFields <$> issues w' !! k) →
  (getIssueHierarchy args w).1 = (getIssueHierarchy args w').1.
Proof.
  intros H.
  assert (∀ owner repo p, relatedNode p <$> issues w !! (owner, repo, p) =
                          relatedNode p <$> issues w' !! (owner, repo, p)) as Hrel.
  { intros owner repo p. specialize (H (owner, repo, p)).
    destruct (issues w !! _) as [i|], (issues w' !! _) as [i'|]; try done.
    change (Some (hierarchyFields i) = Some (hierarchyFields i')) in H.
    change (Some (relatedNode p i) = Some (relatedNode p i')).
    f_equal. apply relatedNode_fields. congruence. }
  pose proof (H (toLowerCase (hierarchyOwner args), hierarchyRepo args, issueNumber args)) as Hk.
  destruct (issues w !! _) as [i|] eqn:Hi, (issues w' !! _) as [i'|] eqn:Hi';
    try done.
  - rewrite (getIssueHierarchy_pure args w i Hi), (getIssueHierarchy_pure args w' i' Hi').
    change (Some (hierarchyFields i) = Some (hierarchyFields i')) in Hk.
    unfold hierarchyFields in Hk. injection Hk as H1 H2 H3 H4 H5.
    simpl. rewrite H1, H2, H3, H4, H5. do 3 f_equal.
    + destruct (parentMatch (issueBody i')); [|done]. by rewrite Hrel.
    + f_equal. apply list_omap_ext, Forall2_same_length_lookup. split; [done|].
      intros k a b Ha Hb. assert (a = b) as -> by congruence. apply Hrel.
  - by rewrite (getIssueHierarchy_missing args w Hi), (getIssueHierarchy_missing args w' Hi').
Qed.
End HierarchyView.

Section RoundTripConditions.

(** The two conditions of the round trip are the weakest there are: after a
    "tracks" link of two distinct existing issues, the view of the parent
    lists the child only if the first condition holds, and the view of the
    child lists the parent only if the second does. *)
Lemma round_trip_conditions_necessary owner repo p c lt w pi ci :
  let args := mkLinkArgs owner repo p c lt in
  issues w !! parentKey args = Some pi →
  issues w !! childKey args = Some ci →
  p ≠ c →
  default tracks lt = tracks →
  let w' := (linkIssues args w).2 in
  (∀ hp, hierarchyOf owner repo p w' = Some hp → c ∈ nodeNumber <$> children hp →
         (length (issueComments pi) < 100)%nat ∨
         c ∈ childNumbersOf (take 100 (issueComments pi))) ∧
  (∀ hc, hierarchyOf owner repo c w' = Some hc → p ∈ nodeNumber <$> parents hc →
         parentMatch (updatedChildBody p (issueTitle pi) (issueBody ci)) = Some p).
Proof.
  intros args Hp Hc Hne Ht w'. subst w'.
  rewrite (linkIssues_tracks args w pi ci Hp Hc Hne Ht). cbn [snd].
  set (w' := setIssues _ w).
  set (pi' := withBody _ (withComment _ pi)) in w'.
  set (ci' := withBody _ (withComment _ ci)) in w'.
  assert (issues w' !! (toLowerCase owner, repo, p) = Some pi') as Hp'.
  { apply lookup_insert_eq. }
  assert (issues w' !! (toLowerCase owner, repo, c) = Some ci') as Hc'.
  { unfold w', setIssues; simpl.
    rewrite lookup_insert_ne by (unfold parentKey, childKey; simpl; congruence).
    apply lookup_insert_eq. }
  unfold hierarchyOf.
  rewrite (getIssueHierarchy_pure (mkHierarchyArgs owner repo p) w' pi' Hp').
  rewrite (getIssueHierarchy_pure (mkHierarchyArgs owner repo c) w' ci' Hc').
  cbn [fst hierarchyOwner hierarchyRepo issueNumber]. split.
  - intros hp [= <-]. cbn [children]. intros (node & Hn & Hin)%list_elem_of_fmap_1.
    unfold sortChildren in Hin. rewrite arraySort_perm in Hin.
    apply (relatedNodes_resolve (toLowerCase owner) repo w') in Hin as [Hin _].
    rewrite <- Hn in Hin.
    change (issueComments pi') with
      (issueComments pi ++ ["Tracks #" +:+ numberToString c]) in Hin.
    destruct (decide (length (issueComments pi) < 100)%nat) as [Hlen|Hlen]; [by left|].
    right. by rewrite take_app_le in Hin by lia.
  - intros hc [= <-]. cbn [parents].
    change (issueBody ci') with (updatedChildBody p (issueTitle pi) (issueBody ci)).
    destruct (parentMatch _) as [q|]; [|by intros ?%elem_of_nil].
    destruct (_ !! (toLowerCase owner, repo, q)); simpl;
      [|by intros ?%elem_of_nil].
    by intros ->%list_elem_of_singleton.
Qed.

(** The number of a comment is read to the end of its digits: a comment that
    tracks issue 1010 does not make issue 101 a child. *)
Example childNumbersOf_greedy :
  childNumbersOf ["Tracks #1010"] = [1010] ∧
  101 ∉ childNumbersOf (take 100 ("Tracks #1010" :: replicate 99 "Any news?")).
Proof. split; [reflexivity|]. by apply (bool_decide_unpack _). Qed.
End RoundTripConditions.

(** ** Links of every type *)

Section LinkMore.
#[local] Arguments append : simpl nomatch.
Implicit Types (w : World) (args : LinkArgs) (i : Issue) (s d : string).

Lemma execTracks_other a s : a ≠ "T"%char → execTracks 0 (String a s) = execTracks 0 s.
Proof.
  intros Ha. cbn [execTracks]. unfold tracksAt. simpl.
  rewrite decide_False by congruence. done.
Qed.

Lemma execTracks_digits d : allChars isDigit d = true → execTracks 0 d = [].
Proof.
  induction d as [|a d IH]; [done|]. simpl allChars. intros [Ha Hd]%andb_prop.
  rewrite execTracks_other; [by apply IH|]. by intros ->.
Qed.

Lemma execTracks_untracked lt n :
  lt ≠ tracks →
  execTracks 0 (parentCommentOf lt n) = [] ∧ execTracks 0 (childCommentOf lt n) = [].
Proof.
  intros Hlt. unfold parentCommentOf, childCommentOf.
  destruct lt; [done| |]; cbn [append];
    rewrite ?execTracks_other by discriminate;
    by rewrite execTracks_digits by apply numberToString_digits.
Qed.

Lemma childNumbersOf_page_snoc (comments : list string) body :
  execTracks 0 body = [] →
  childNumbersOf (take 100 (comments ++ [body])) = childNumbersOf (take 100 comments).
Proof.
  intros Hb. destruct (decide (100 ≤ length comments)%nat) as [Hlen|Hlen].
  - by rewrite take_app_le.
  - rewrite !take_ge by (rewrite ?length_app; simpl; lia).
    unfold childNumbersOf. rewrite foldl_app. cbn [foldl]. by rewrite Hb.
Qed.

Lemma addComment_fields id body w k :
  execTracks 0 body = [] →
  hierarchyFields <$> issues (addComment id body w).2 !! k = hierarchyFields <$> issues w !! k.
Proof.
  intros Hb. unfold addComment. destruct (issues w !! id) as [i|] eqn:Hi; [|done].
  cbn [snd setIssues issues]. destruct (decide (k = id)) as [->|Hk].
  - rewrite lookup_insert_eq, Hi. cbn [fmap option_fmap option_map]. f_equal.
    unfold hierarchyFields, withComment. cbn [issueTitle issueBody issueState issueLabels issueComments].
    by rewrite childNumbersOf_page_snoc.
  - by rewrite lookup_insert_ne.
Qed.

(** What a link of another type than "tracks" does to the store: the two
    comments, nothing else. *)
Lemma linkIssues_untracked args w pi ci :
  issues w !! parentKey args = Some pi →
  issues w !! childKey args = Some ci →
  default tracks (linkType args) ≠ tracks →
  linkIssues args w =
  (inr (LinkResult true
          (mkIssueRef (parentIssueNumber args) (issueTitle pi))
          (mkIssueRef (childIssueNumber args) (issueTitle ci))
          (default tracks (linkType args))),
   (addComment (childKey args)
      (childCommentOf (default tracks (linkType args)) (parentIssueNumber args))
      (addComment (parentKey args)
         (parentCommentOf (default tracks (linkType args)) (childIssueNumber args)) w).2).2).
Proof.
  intros Hp Hc Hlt. unfold linkIssues, bind, queryIssue. simpl.
  unfold parentKey, childKey in *. rewrite Hp. simpl. rewrite Hc. simpl.
  unfold parentCommentOf, childCommentOf.
  destruct (default tracks (linkType args)); [done| |];
    unfold addComment, setIssues, ret; simpl; rewrite Hp; simpl;
    (destruct (decide (parentIssueNumber args = childIssueNumber args)) as [Heq|Hne];
     [rewrite <- Heq; rewrite lookup_insert_eq; simpl; done
     |rewrite lookup_insert_ne by congruence; rewrite Hc; simpl; done]).
Qed.

(** X6.  A link of type "blocks" or "related" is invisible to the hierarchy:
    every view is the same after the call as before it. *)
Theorem link_untracked_invisible args w owner repo n :
  default tracks (linkType args) ≠ tracks →
  hierarchyOf owner repo n (linkIssues args w).2 = hierarchyOf owner repo n w.
Proof.
  intros Hlt. destruct (issues w !! parentKey args) as [pi|] eqn:Hp;
    [|by rewrite linkIssues_parent_missing].
  destruct (issues w !! childKey args) as [ci|] eqn:Hc;
    [|by rewrite linkIssues_child_missing].
  rewrite (linkIssues_untracked args w pi ci Hp Hc Hlt). cbn [snd].
  unfold hierarchyOf. erewrite getIssueHierarchy_view; [done|].
  intros k. destruct (execTracks_untracked _ (childIssueNumber args) Hlt) as [Hpc _].
  destruct (execTracks_untracked _ (parentIssueNumber args) Hlt) as [_ Hcc].
  by rewrite !addComment_fields.
Qed.

Lemma link_untracked_invisible_witness :
  hierarchyOf "octo" "demo" 100
    (linkIssues (mkLinkArgs "octo" "demo" 100 101 (Some blocks)) exampleWorld).2 =
  hierarchyOf "octo" "demo" 100 exampleWorld.
Proof. apply link_untracked_invisible. discriminate. Defined.

Lemma sameHeader_refl i : sameHeader i i.
Proof. by repeat split. Qed.

(** X7.  Frame of a link of two distinct existing issues, whatever its type:
    no other issue and no other part of the store changes; each of the two
    issues keeps its title, state, labels, assignees and milestone and gains
    exactly one comment; and unless the type is "tracks" the bodies stay as
    they are. *)
Theorem linkIssues_frame args w pi ci :
  issues w !! parentKey args = Some pi →
  issues w !! childKey args = Some ci →
  parentIssueNumber args ≠ childIssueNumber args →
  let lt := default tracks (linkType args) in
  let w' := (linkIssues args w).2 in
  (∀ k, k ≠ parentKey args → k ≠ childKey args → issues w' !! k = issues w !! k) ∧
  repositories w' = repositories w ∧ users w' = users w ∧
  subIssues w' = subIssues w ∧ stderr w' = stderr w ∧
  ∃ pi' ci',
    issues w' !! parentKey args = Some pi' ∧ issues w' !! childKey args = Some ci' ∧
    sameHeader pi pi' ∧ sameHeader ci ci' ∧
    issueComments pi' = issueComments pi ++ [parentCommentOf lt (childIssueNumber args)] ∧
    issueComments ci' = issueComments ci ++ [childCommentOf lt (parentIssueNumber args)] ∧
    (lt ≠ tracks → issueBody pi' = issueBody pi ∧ issueBody ci' = issueBody ci).
Proof.
  intros Hp Hc Hne lt w'.
  assert (parentKey args ≠ childKey args) as Hkeys by (unfold parentKey, childKey; congruence).
  assert (lt = tracks ∨ lt ≠ tracks) as [Ht|Ht]
    by (subst lt; destruct (default tracks (linkType args)); [by left|by right|by right]).
  all: subst w'.
  - rewrite (linkIssues_tracks args w pi ci Hp Hc Hne Ht). cbn [snd setIssues issues
      repositories users subIssues stderr]. rewrite Ht.
    split; [by intros k ??; rewrite !lookup_insert_ne|].
    do 4 (split; [done|]). eexists _, _.
    rewrite lookup_insert_eq, lookup_insert_ne, lookup_insert_eq by done.
    do 2 (split; [done|]). repeat split; done.
  - rewrite (linkIssues_untracked args w pi ci Hp Hc Ht). fold lt.
    unfold addComment. rewrite Hp. cbn [snd setIssues issues]. 
    rewrite lookup_insert_ne, Hc by done.
    cbn [snd setIssues issues repositories users subIssues stderr].
    split; [by intros k ??; rewrite !lookup_insert_ne|].
    do 4 (split; [done|]). eexists _, _.
    rewrite lookup_insert_ne, lookup_insert_eq, lookup_insert_eq by done.
    do 2 (split; [done|]). repeat split; done.
Qed.

Lemma linkIssues_frame_witness :
  let args := mkLinkArgs "Octo" "demo" 100 101 (Some related) in
  let pi := mkIssue "Epic: sign-in" "Scope of the work." OPEN ["epic"] [] None [] in
  let ci := mkIssue "Fix login redirect" "" OPEN [] [] None [] in
  let w' := (linkIssues args exampleWorld).2 in
  (∀ k, k ≠ parentKey args → k ≠ childKey args →
        issues w' !! k = issues exampleWorld !! k) ∧
  repositories w' = repositories exampleWorld ∧ users w' = users exampleWorld ∧
  subIssues w' = subIssues exampleWorld ∧ stderr w' = stderr exampleWorld ∧
  ∃ pi' ci',
    issues w' !! parentKey args = Some pi' ∧ issues w' !! childKey args = Some ci' ∧
    sameHeader pi pi' ∧ sameHeader ci ci' ∧
    issueComments pi' = issueComments pi ++ [parentCommentOf related 101] ∧
    issueComments ci' = issueComments ci ++ [childCommentOf related 100] ∧
    (related ≠ tracks → issueBody pi' = issueBody pi ∧ issueBody ci' = issueBody ci).
Proof.
  apply (linkIssues_frame (mkLinkArgs "Octo" "demo" 100 101 (Some related)) exampleWorld
           (mkIssue "Epic: sign-in" "Scope of the work." OPEN ["epic"] [] None [])
           (mkIssue "Fix login redirect" "" OPEN [] [] None [])).
  - reflexivity.
  - reflexivity.
  - discriminate.
Defined.
End LinkMore.

(** ** Marks of a link in the bodies *)

Section Marks.
#[local] Arguments append : simpl nomatch.
Implicit Types (w : World) (args : LinkArgs) (i : Issue) (s k j title body : string).

Lemma includes_split s k : includes s k = true → ∃ a b, s = a +:+ k +:+ b.
Proof.
  induction s as [|c s IH]; simpl.
  - rewrite orb_false_r. intros [r Hr]%startsWith_true. by exists "", r.
  - intros [[r Hr]%startsWith_true|[a [b ->]]%IH]%orb_prop.
    + by exists "", r.
    + by exists (String c a), b.
Qed.

Lemma includes_trans s k j :
  includes s k = true → includes k j = true → includes s j = true.
Proof.
  intros [a [b ->]]%includes_split [c [d ->]]%includes_split.
  rewrite !append_assoc, <- (append_assoc a c). apply includes_app_here.
Qed.

Lemma includes_toLowerCase s k :
  includes s k = true → includes (toLowerCase s) (toLowerCase k) = true.
Proof.
  intros [a [b ->]]%includes_split. rewrite !toLowerCase_app. apply includes_app_here.
Qed.

Lemma detectIssueType_parent_marker title body :
  includes body "**Parent:**" = true → detectIssueType title (Some body) = Some epic.
Proof.
  intros H. unfold detectIssueType.
  assert (includes (combinedText title (Some body)) "parent" = true) as ->;
    [|by rewrite !orb_true_r].
  unfold combinedText. simpl default. rewrite !toLowerCase_app.
  do 2 apply includes_app_r. apply includes_trans with (toLowerCase "**Parent:**").
  - by apply includes_toLowerCase.
  - reflexivity.
Qed.

Lemma replaceParentBlock_eq repl before s :
  replaceParentBlock repl before s =
  match parentBlockAt s with
  | Some (m, after) => getSubstitution m before after repl +:+ after
  | None =>
      match s with
      | EmptyString => EmptyString
      | String c s' => String c (replaceParentBlock repl (before +:+ String c EmptyString) s')
      end
  end.
Proof. by destruct s. Qed.

(** [replace] gives the text back, or puts the expansion of the replacement
    somewhere in it. *)
Lemma replaceParentBlock_cases repl before s :
  replaceParentBlock repl before s = s ∨
  ∃ pre m after,
    replaceParentBlock repl before s =
    pre +:+ getSubstitution m (before +:+ pre) after repl +:+ after.
Proof.
  revert before. induction s as [|c s IH]; intros before; rewrite replaceParentBlock_eq.
  - by left.
  - destruct (parentBlockAt (String c s)) as [[m after]|].
    + right. exists "", m, after. by rewrite append_nil_r.
    + destruct (IH (before +:+ String c EmptyString)) as [->|(pre & m & after & ->)];
        [by left|].
      right. exists (String c pre), m, after. by rewrite append_assoc.
Qed.

Lemma updatedChildBody_marker (p : N) title body :
  includes (updatedChildBody p title body) "**Parent:**" = true.
Proof.
  unfold updatedChildBody. cbv zeta.
  change (LF +:+ LF +:+ "---" +:+ LF +:+ "**Parent:** #" +:+ ?x) with
    (parentBlockHead +:+ " #" +:+ x).
  assert (∀ x, includes (parentBlockHead +:+ x) "**Parent:**" = true) as Hhead.
  { intros x. change (parentBlockHead +:+ x) with
      ((LF +:+ LF +:+ "---" +:+ LF) +:+ "**Parent:**" +:+ x). apply includes_app_here. }
  destruct (includes body "**Parent:**") eqn:E.
  - destruct (replaceParentBlock_cases
                (parentBlockHead +:+ " #" +:+ numberToString p +:+ " - " +:+ title) "" body)
      as [->|(pre & m & after & ->)]; [done|].
    rewrite getSubstitution_plain by done. rewrite append_assoc.
    apply includes_app_r, Hhead.
  - apply includes_app_r, Hhead.
Qed.

Lemma updatedParentBody_reference (n : N) title body :
  includes (updatedParentBody n title body) ("#" +:+ numberToString n) = true.
Proof.
  unfold updatedParentBody. cbv zeta. fold (childTaskItem n title).
  destruct (testTaskList body) eqn:Htest.
  - destruct (includes body ("#" +:+ numberToString n)) eqn:Hinc; simpl; [done|].
    apply includes_replace; [apply includes_childTaskItem|done].
  - apply includes_app_l, includes_app_r, includes_app_r, includes_app_l, includes_childTaskItem.
Qed.

(** X8.  After a "tracks" link of two distinct existing issues both bodies
    carry a mark of it, whatever they held before: the body of the parent
    holds [#child] and the body of the child holds [**Parent:**]. *)
Theorem link_tracks_marks args w pi ci :
  issues w !! parentKey args = Some pi →
  issues w !! childKey args = Some ci →
  parentIssueNumber args ≠ childIssueNumber args →
  default tracks (linkType args) = tracks →
  ∃ pi' ci',
    issues (linkIssues args w).2 !! parentKey args = Some pi' ∧
    issues (linkIssues args w).2 !! childKey args = Some ci' ∧
    includes (issueBody pi') ("#" +:+ numberToString (childIssueNumber args)) = true ∧
    includes (issueBody ci') "**Parent:**" = true.
Proof.
  intros Hp Hc Hne Ht.
  assert (parentKey args ≠ childKey args) as Hkeys by (unfold parentKey, childKey; congruence).
  rewrite (linkIssues_tracks args w pi ci Hp Hc Hne Ht). cbn [snd setIssues issues].
  eexists _, _. rewrite lookup_insert_eq, lookup_insert_ne, lookup_insert_eq by done.
  do 2 (split; [done|]). cbn [withBody issueBody].
  split; [apply updatedParentBody_reference|apply updatedChildBody_marker].
Qed.

Lemma link_tracks_marks_witness :
  let args := mkLinkArgs "Octo" "demo" 100 101 None in
  ∃ pi' ci',
    issues (linkIssues args exampleWorldMarked).2 !! parentKey args = Some pi' ∧
    issues (linkIssues args exampleWorldMarked).2 !! childKey args = Some ci' ∧
    includes (issueBody pi') ("#" +:+ numberToString 101) = true ∧
    includes (issueBody ci') "**Parent:**" = true.
Proof.
  apply (link_tracks_marks (mkLinkArgs "Octo" "demo" 100 101 None) exampleWorldMarked
           (mkIssue "Epic: sign-in" "Scope of the work." OPEN ["epic"] [] None [])
           (mkIssue "Fix login redirect" "**Parent:** to be decided" OPEN [] [] None [])).
  - reflexivity.
  - reflexivity.
  - discriminate.
  - reflexivity.
Defined.

(** X9.  The child of a "tracks" link of two distinct existing issues is
    shown as an epic from then on: its body holds the word "Parent", a
    keyword of the first test of the classifier, so the view of the child
    gives its type as 'epic' whatever its title and body say.  (An issue
    linked to itself is another matter: its body is the one written for a
    parent, see X11.) *)
Theorem link_makes_child_epic args w pi ci :
  issues w !! parentKey args = Some pi →
  issues w !! childKey args = Some ci →
  parentIssueNumber args ≠ childIssueNumber args →
  default tracks (linkType args) = tracks →
  ∃ h, hierarchyOf (linkOwner args) (linkRepo args) (childIssueNumber args)
         (linkIssues args w).2 = Some h ∧
       nodeType (current h) = Some epic.
Proof.
  intros Hp Hc Hne Ht.
  assert (parentKey args ≠ childKey args) as Hkeys by (unfold parentKey, childKey; congruence).
  rewrite (linkIssues_tracks args w pi ci Hp Hc Hne Ht). cbn [snd]. unfold hierarchyOf.
  erewrite getIssueHierarchy_pure; last first.
  { cbn [setIssues issues hierarchyOwner hierarchyRepo issueNumber].
    fold (childKey args). rewrite lookup_insert_ne, lookup_insert_eq by done. done. }
  cbn [fst]. eexists. split; [done|]. cbn [current nodeType withBody issueTitle issueBody].
  apply detectIssueType_parent_marker, updatedChildBody_marker.
Qed.

Lemma link_makes_child_epic_witness :
  ∃ h, hierarchyOf "Octo" "demo" 101
         (linkIssues (mkLinkArgs "Octo" "demo" 100 101 None) exampleWorld).2 = Some h ∧
       nodeType (current h) = Some epic.
Proof.
  apply (link_makes_child_epic (mkLinkArgs "Octo" "demo" 100 101 None) exampleWorld
           (mkIssue "Epic: sign-in" "Scope of the work." OPEN ["epic"] [] None [])
           (mkIssue "Fix login redirect" "" OPEN [] [] None [])).
  - reflexivity.
  - reflexivity.
  - discriminate.
  - reflexivity.
Defined.

Lemma spanDot_singleLine s : singleLine s = true → spanDot s = (s, "").
Proof.
  unfold singleLine. induction s as [|c s IH]; simpl; [done|].
  intros [Hc Hs]%andb_prop. apply negb_true_iff in Hc. rewrite Hc, IH; done.
Qed.

Lemma digit_not_terminator c : isDigit c = true → negb (isLineTerminator c) = true.
Proof. by destruct c as [[] [] [] [] [] [] [] []]. Qed.

(** X10.  Moving a child to another parent gives the body a first link to
    that parent would have given: the parent block written by the first link
    is replaced as a whole (the body held no [**Parent:**] before, titles go
    on one line, and the new title holds no [$], which [replace] would
    expand). *)
Theorem updatedChildBody_relink (p q : N) title title' body :
  includes body "**Parent:**" = false →
  singleLine title' = true →
  allChars notDollar title = true →
  updatedChildBody p title (updatedChildBody q title' body) = updatedChildBody p title body.
Proof.
  intros Hbody Hline Hplain.
  unfold updatedChildBody at 2 3. cbv zeta. rewrite Hbody.
  unfold updatedChildBody. cbv zeta.
  change (LF +:+ LF +:+ "---" +:+ LF +:+ "**Parent:** #" +:+ ?x) with
    (parentBlockHead +:+ String " " ("#" +:+ x)).
  rewrite includes_app_r
    by (change (parentBlockHead +:+ ?x) with
          ((LF +:+ LF +:+ "---" +:+ LF) +:+ "**Parent:**" +:+ x); apply includes_app_here).
  rewrite replaceParentBlock_first by done.
  rewrite spanDot_singleLine.
  - cbn [fst snd]. rewrite append_nil_r.
    rewrite <- (append_nil_r (parentBlockHead +:+ String " " ("#" +:+ numberToString p +:+ " - " +:+ title))) at 1.
    rewrite getSubstitution_plain; [cbn [getSubstitution]; by rewrite append_nil_r|].
    apply allChars_app; [done|]. change (String " " ("#" +:+ ?x)) with (" #" +:+ x).
    apply allChars_app; [done|]. apply allChars_app.
    { eapply allChars_impl; [apply digit_notDollar|apply numberToString_digits]. }
    by apply allChars_app.
  - unfold singleLine. change (String " " ("#" +:+ ?x)) with (" #" +:+ x).
    apply allChars_app; [done|]. apply allChars_app.
    { eapply allChars_impl; [apply digit_not_terminator|apply numberToString_digits]. }
    by apply allChars_app.
Qed.

Lemma updatedChildBody_relink_witness :
  updatedChildBody 7 "Epic: billing" (updatedChildBody 100 "Epic: sign-in" "Steps to reproduce") =
  updatedChildBody 7 "Epic: billing" "Steps to reproduce".
Proof. by apply updatedChildBody_relink. Defined.

(** A "tracks" link of an issue to itself: both comments, and the body of
    the last update, which is computed from the body read at the start. *)
Lemma linkIssues_same_issue args w i :
  issues w !! parentKey args = Some i →
  childIssueNumber args = parentIssueNumber args →
  default tracks (linkType args) = tracks →
  let n := parentIssueNumber args in
  linkIssues args w =
  (inr (LinkResult true (mkIssueRef n (issueTitle i)) (mkIssueRef n (issueTitle i)) tracks),
   setIssues
     (insert (parentKey args)
        (withBody (updatedParentBody n (issueTitle i) (issueBody i))
           (withComment ("Tracked by #" +:+ numberToString n)
              (withComment ("Tracks #" +:+ numberToString n) i)))) w).
Proof.
  intros Hp Heq Ht n. subst n. unfold linkIssues, bind, queryIssue. simpl.
  unfold parentKey in *. rewrite ?Heq. rewrite Hp. simpl. rewrite ?Heq. rewrite Hp. simpl.
  rewrite Ht. unfold addComment, updateIssueBody, setIssues, ret. simpl.
  rewrite ?Heq. rewrite Hp. simpl. repeat (rewrite lookup_insert_eq; simpl).
  do 2 f_equal. by rewrite !insert_insert_eq.
Qed.

(** X11.  Nothing stops a "tracks" link of an issue to itself.  The call
    succeeds and names the issue as parent and as child; the issue gets both
    comments and its own number in its task list; and the parent reference
    written to its body a moment before is lost, because the body written
    last is computed from the body read at the start. *)
Theorem linkIssues_self args w i :
  issues w !! parentKey args = Some i →
  childIssueNumber args = parentIssueNumber args →
  default tracks (linkType args) = tracks →
  let n := parentIssueNumber args in
  (linkIssues args w).1 =
    inr (LinkResult true (mkIssueRef n (issueTitle i)) (mkIssueRef n (issueTitle i)) tracks) ∧
  ∃ i',
    issues (linkIssues args w).2 !! parentKey args = Some i' ∧
    sameHeader i i' ∧
    issueComments i' =
      issueComments i ++ ["Tracks #" +:+ numberToString n;
                          "Tracked by #" +:+ numberToString n] ∧
    issueBody i' = updatedParentBody n (issueTitle i) (issueBody i) ∧
    includes (issueBody i') ("#" +:+ numberToString n) = true.
Proof.
  intros Hp Heq Ht n. rewrite (linkIssues_same_issue args w i Hp Heq Ht). fold n.
  split; [done|]. eexists. cbn [snd setIssues issues]. rewrite lookup_insert_eq.
  split; [done|]. split; [by repeat split|]. split.
  - cbn [withBody withComment issueComments]. by rewrite <- List.app_assoc.
  - split; [done|]. apply updatedParentBody_reference.
Qed.

Lemma linkIssues_self_witness :
  let args := mkLinkArgs "octo" "demo" 100 100 None in
  let i := mkIssue "Epic: sign-in" "Scope of the work." OPEN ["epic"] [] None [] in
  (linkIssues args exampleWorld).1 =
    inr (LinkResult true (mkIssueRef 100 "Epic: sign-in") (mkIssueRef 100 "Epic: sign-in")
           tracks) ∧
  ∃ i',
    issues (linkIssues args exampleWorld).2 !! parentKey args = Some i' ∧
    sameHeader i i' ∧
    issueComments i' =
      issueComments i ++ ["Tracks #" +:+ numberToString 100;
                          "Tracked by #" +:+ numberToString 100] ∧
    issueBody i' = updatedParentBody 100 "Epic: sign-in" "Scope of the work." ∧
    includes (issueBody i') ("#" +:+ numberToString 100) = true.
Proof.
  apply (linkIssues_self (mkLinkArgs "octo" "demo" 100 100 None) exampleWorld
           (mkIssue "Epic: sign-in" "Scope of the work." OPEN ["epic"] [] None [])).
  - reflexivity.
  - reflexivity.
  - reflexivity.
Defined.
End Marks.

(** ** Native sub-issues and [setParent] *)

Section SubIssue.
Implicit Types (w : World) (args : SubIssueArgs).

(** X12.  Native sub-issues and the hierarchy view do not meet.  When the
    native mutation succeeds the call records the pair and touches no issue,
    no comment and no body, and writes nothing to [stderr]; every hierarchy
    view is the same after the call as before it. *)
Theorem addSubIssue_native args w pi ci :
  issues w !! subParentKey args = Some pi →
  issues w !! subChildKey args = Some ci →
  nativeSubIssueFailure w = None →
  let w' := (addSubIssue args w).2 in
  (addSubIssue args w).1 =
    inr (NativeSubIssueResult true
           (mkIssueRef (subParentIssueNumber args) (issueTitle pi))
           (mkIssueRef (subChildIssueNumber args) (issueTitle ci))
           (subParentKey args, subChildKey args)) ∧
  subIssues w' = subIssues w ++ [(subParentKey args, subChildKey args)] ∧
  issues w' = issues w ∧ stderr w' = stderr w ∧
  ∀ owner repo n, hierarchyOf owner repo n w' = hierarchyOf owner repo n w.
Proof.
  intros Hp Hc Hn w'. subst w'.
  unfold addSubIssue, queryIssuePair, bind, queryIssue. simpl.
  unfold subParentKey, subChildKey in *. rewrite Hp. simpl. rewrite Hc. simpl.
  unfold tryCatch, bind, addSubIssueMutation, ret. rewrite Hn. simpl.
  do 4 (split; [done|]). intros owner repo n. unfold hierarchyOf.
  by erewrite getIssueHierarchy_view.
Qed.

Lemma addSubIssue_native_witness :
  let args := mkSubIssueArgs "Octo" "demo" 100 101 in
  let w' := (addSubIssue args exampleWorld).2 in
  (addSubIssue args exampleWorld).1 =
    inr (NativeSubIssueResult true
           (mkIssueRef 100 "Epic: sign-in") (mkIssueRef 101 "Fix login redirect")
           (subParentKey args, subChildKey args)) ∧
  subIssues w' = subIssues exampleWorld ++ [(subParentKey args, subChildKey args)] ∧
  issues w' = issues exampleWorld ∧ stderr w' = stderr exampleWorld ∧
  ∀ owner repo n, hierarchyOf owner repo n w' = hierarchyOf owner repo n exampleWorld.
Proof.
  apply (addSubIssue_native (mkSubIssueArgs "Octo" "demo" 100 101) exampleWorld
           (mkIssue "Epic: sign-in" "Scope of the work." OPEN ["epic"] [] None [])
           (mkIssue "Fix login redirect" "" OPEN [] [] None [])).
  - reflexivity.
  - reflexivity.
  - reflexivity.
Defined.

(** X13.  [addSubIssue] with a number that does not resolve fails with an
    invalid-request error before anything is attempted: the store, [stderr]
    included, is as before.  The parent is reported first, also when both
    numbers are unknown. *)
Theorem addSubIssue_not_found args w :
  (issues w !! subParentKey args = None →
   addSubIssue args w = (inl (McpError InvalidRequest "Parent issue not found"), w)) ∧
  (is_Some (issues w !! subParentKey args) → issues w !! subChildKey args = None →
   addSubIssue args w = (inl (McpError InvalidRequest "Child issue not found"), w)).
Proof.
  unfold addSubIssue, queryIssuePair, bind, queryIssue, subParentKey, subChildKey. simpl.
  split.
  - intros ->. simpl.
    by destruct (issues w !! (toLowerCase (subOwner args), subRepo args, subChildIssueNumber args)).
  - intros [pi ->] ->. done.
Qed.

(** X14.  [setParent] is a "tracks" link with the roles swapped:
    [setParent(issue, parent)] does what [linkIssues(parent, issue)] does. *)
Theorem setParent_linkIssues owner repo issue parent w :
  setParent (mkSetParentArgs owner repo issue parent) w =
  linkIssues (mkLinkArgs owner repo parent issue None) w.
Proof. unfold setParent, linkIssues. simpl. by rewrite toLowerCase_idemp. Qed.
End SubIssue.

Section Create.
Implicit Types (w : World) (args : CreateIssueArgs) (r : Repository).

Lemma bind_pure {A B} (c : Tool A) (k : A → Tool B) w a :
  c w = (inr a, w) → bind c k w = k a w.
Proof. intros H. unfold bind. by rewrite H. Qed.

Lemma queryUsers_pure (usernames : list string) w :
  queryUsers usernames w = (inr (filter (λ u, u ∈ users w) usernames), w).
Proof.
  induction usernames as [|u us IH]; [done|].
  cbn [queryUsers]. unfold bind, queryUser. rewrite IH. unfold ret.
  rewrite filter_cons. by case_bool_decide; case_decide.
Qed.

Lemma createIssueUpstream_missing args w :
  repositories w !! createRepoKey args = None →
  createIssueUpstream (toLowerCase (createOwner args)) args w =
  (inl (McpError InvalidRequest "Repository not found"), w).
Proof.
  intros H. unfold createIssueUpstream, bind, queryRepository. unfold createRepoKey in H.
  by rewrite H.
Qed.

(** The creating part of [createIssue] in a repository that exists. *)
Lemma createIssueUpstream_ok args w r :
  repositories w !! createRepoKey args = Some r →
  ∃ assignees milestone,
    let i := mkIssue (createTitle args) (default "" (createBody args)) OPEN
                     (sentLabels args r) assignees milestone [] in
    createIssueUpstream (toLowerCase (createOwner args)) args w =
    (inr (mkCreatedIssue (repoNextNumber r) (createTitle args) (default "" (createBody args))
            OPEN (take 10 (sentLabels args r)) (take 10 assignees) milestone None None),
     mkWorld (<[(createRepoKey args, repoNextNumber r) := i]> (issues w))
             (<[createRepoKey args :=
                  mkRepository (repoLabels r) (repoMilestones r) (repoNextNumber r + 1)]>
                (repositories w))
             (users w) (subIssues w) (nativeSubIssueFailure w) (stderr w)).
Proof.
  intros H. unfold createRepoKey in *. unfold createIssueUpstream. cbv zeta.
  set (autoLabels := autoLabelsOf _ _).
  rewrite (bind_pure _ _ w
             (Some (toLowerCase (createOwner args), createRepo args, r)))
    by (unfold queryRepository; by rewrite H).
  cbv beta iota.
  rewrite (bind_pure _ _ w
             (match autoLabels with
              | [] => None
              | _ => Some (filter (λ labelName, labelName ∈ take 100 (repoLabels r))
                                  autoLabels)
              end))
    by (destruct autoLabels; [done|]; unfold bind, queryRepository, ret; by rewrite H).
  rewrite (bind_pure _ _ w
             (match createAssignees args with
              | Some ((_ :: _) as assignees) => Some (filter (λ u, u ∈ users w) assignees)
              | _ => None
              end))
    by (destruct (createAssignees args) as [[|u us]|]; try done;
        unfold bind; by rewrite queryUsers_pure).
  rewrite (bind_pure _ _ w
             (match createMilestone args with
              | Some milestone =>
                  if bool_decide (milestone = 0) then None
                  else if bool_decide (milestone ∈ repoMilestones r) then Some milestone
                       else None
              | None => None
              end))
    by (destruct (createMilestone args) as [m|]; [|done]; case_bool_decide; [done|];
        unfold bind, queryRepository, ret; by rewrite H).
  unfold createIssueMutation. rewrite H. cbv zeta.
  cbn [issueLabels issueAssignees].
  eexists (default [] _), _.
  assert (default []
            (match autoLabels with
             | [] => None
             | _ => Some (filter (λ labelName, labelName ∈ take 100 (repoLabels r)) autoLabels)
             end) = sentLabels args r) as ->.
  { unfold sentLabels. fold autoLabels. by destruct autoLabels. }
  assert (default "" (match createBody args with Some EmptyString => None | _ => createBody args end)
          = default "" (createBody args)) as -> by (by destruct (createBody args) as [[|??]|]).
  reflexivity.
Qed.
End Create.

Section CreateMore.
Implicit Types (w : World) (args : CreateIssueArgs) (r : Repository).

(** X15.  [createIssue] in a repository that does not resolve fails with
    'Repository not found' before anything is written: no issue is created
    and no link is attempted, parent or not. *)
Theorem createIssue_repository_missing args w :
  repositories w !! createRepoKey args = None →
  createIssue args w = (inl (McpError InvalidRequest "Repository not found"), w).
Proof.
  intros H. unfold createIssue, bind. by rewrite (createIssueUpstream_missing args w H).
Qed.

Lemma createIssue_repository_missing_witness :
  createIssue (mkCreateIssueArgs "Octo" "nowhere" "Fix the crash on start" None None None
                 None (Some 100)) exampleWorld =
  (inl (McpError InvalidRequest "Repository not found"), exampleWorld).
Proof. apply createIssue_repository_missing. reflexivity. Defined.

(** X16.  [createIssue] without a parent (absent, or the number 0).  The
    issue is stored under the next number of the repository, open and
    without comments, with the body given (the empty text when there is
    none).  Its labels are the caller's labels and the detected type, less
    every name that is not, letter for letter, among the first hundred labels
    of the repository: those are dropped without a word.  No link is
    attempted and the answer carries neither [parentIssue] nor [linkError]. *)
Theorem createIssue_plain args w r :
  repositories w !! createRepoKey args = Some r →
  createParentIssueNumber args = None ∨ createParentIssueNumber args = Some 0 →
  ∃ created i w',
    createIssue args w = (inr (CreatedIssueResult created), w') ∧
    createdNumber created = repoNextNumber r ∧
    createdLabels created = take 10 (sentLabels args r) ∧
    parentIssue created = None ∧ linkError created = None ∧
    issues w' = <[(createRepoKey args, repoNextNumber r) := i]> (issues w) ∧
    issueTitle i = createTitle args ∧ issueBody i = default "" (createBody args) ∧
    issueState i = OPEN ∧ issueLabels i = sentLabels args r ∧ issueComments i = [].
Proof.
  intros H Hparent. destruct (createIssueUpstream_ok args w r H) as (assignees & milestone & Hup).
  cbv zeta in Hup. eexists _, _, _. split.
  - unfold createIssue, bind. rewrite Hup.
    destruct Hparent as [-> | ->]; [|rewrite bool_decide_eq_true_2 by done]; reflexivity.
  - repeat split; reflexivity.
Qed.

Lemma createIssue_plain_witness :
  let args := mkCreateIssueArgs "Octo" "demo" "Fix the crash on start" (Some "It crashes.")
                (Some ["urgent"]) None None None in
  sentLabels args exampleRepository = ["bug"] ∧
  ∃ created i w',
    createIssue args exampleWorld = (inr (CreatedIssueResult created), w') ∧
    createdNumber created = 102 ∧
    createdLabels created = take 10 (sentLabels args exampleRepository) ∧
    parentIssue created = None ∧ linkError created = None ∧
    issues w' = <[(createRepoKey args, 102) := i]> (issues exampleWorld) ∧
    issueTitle i = "Fix the crash on start" ∧ issueBody i = "It crashes." ∧
    issueState i = OPEN ∧ issueLabels i = sentLabels args exampleRepository ∧
    issueComments i = [].
Proof.
  split; [reflexivity|].
  apply (createIssue_plain
           (mkCreateIssueArgs "Octo" "demo" "Fix the crash on start" (Some "It crashes.")
              (Some ["urgent"]) None None None) exampleWorld exampleRepository).
  - reflexivity.
  - by left.
Defined.

(** X17.  [createIssue] under an existing parent.  The issue is created and
    linked in one call, and the link cannot fail: the answer names the parent
    in [parentIssue] and has no [linkError].  The answer shows the issue as
    created, so with the body as given.  The stored issue has the comment of
    the link and the body that [linkIssues] writes for a child: it always
    holds [**Parent:**], and it is the given body with the parent block
    behind it when the given body held no [**Parent:**].  The parent has one
    more comment, 'Tracks #new', and the body that [linkIssues] writes for a
    parent: it always holds [#new], and it is the old body behind a new
    "### Tasks" section with the line of the new issue when the old body held
    no task list. *)
Theorem createIssue_with_parent args w r p pi :
  repositories w !! createRepoKey args = Some r →
  createParentIssueNumber args = Some p → p ≠ 0 → p ≠ repoNextNumber r →
  issues w !! (createRepoKey args, p) = Some pi →
  let n := repoNextNumber r in
  let body := default "" (createBody args) in
  ∃ created w' ci' pi',
    createIssue args w = (inr (CreatedIssueResult created), w') ∧
    createdNumber created = n ∧
    parentIssue created = Some (p, tracks) ∧ linkError created = None ∧
    createdBody created = body ∧
    issues w' !! (createRepoKey args, n) = Some ci' ∧
    issueLabels ci' = sentLabels args r ∧
    issueComments ci' = ["Tracked by #" +:+ numberToString p] ∧
    issueBody ci' = updatedChildBody p (issueTitle pi) body ∧
    includes (issueBody ci') "**Parent:**" = true ∧
    (includes body "**Parent:**" = false →
     issueBody ci' =
       body +:+ LF +:+ LF +:+ "---" +:+ LF +:+ "**Parent:** #" +:+ numberToString p +:+
       " - " +:+ issueTitle pi) ∧
    issues w' !! (createRepoKey args, p) = Some pi' ∧
    issueComments pi' = issueComments pi ++ ["Tracks #" +:+ numberToString n] ∧
    issueBody pi' = updatedParentBody n (createTitle args) (issueBody pi) ∧
    includes (issueBody pi') ("#" +:+ numberToString n) = true ∧
    (testTaskList (issueBody pi) = false →
     issueBody pi' =
       "### Tasks" +:+ LF +:+ childTaskItem n (createTitle args) +:+ LF +:+ LF +:+
       issueBody pi).
Proof.
  intros H Hparent Hp0 Hpn Hpi n body.
  destruct (createIssueUpstream_ok args w r H) as (assignees & milestone & Hup).
  cbv zeta in Hup. fold n body in Hup.
  assert ((createRepoKey args, p) ≠ (createRepoKey args, n)) as Hkeys
    by (intros [= E]; by apply Hpn).
  set (i := mkIssue (createTitle args) body OPEN
                    (sentLabels args r) assignees milestone []) in *.
  set (w1 := mkWorld _ _ _ _ _ _) in Hup.
  set (largs := mkLinkArgs (toLowerCase (createOwner args)) (createRepo args) p n (Some tracks)).
  assert (parentKey largs = (createRepoKey args, p)) as HpK
    by (unfold parentKey, createRepoKey; simpl; by rewrite toLowerCase_idemp).
  assert (childKey largs = (createRepoKey args, n)) as HcK
    by (unfold childKey, createRepoKey; simpl; by rewrite toLowerCase_idemp).
  assert (issues w1 !! parentKey largs = Some pi) as Hp1
    by (rewrite HpK; subst w1; cbn [issues]; by rewrite lookup_insert_ne).
  assert (issues w1 !! childKey largs = Some i) as Hc1
    by (rewrite HcK; subst w1; cbn [issues]; by rewrite lookup_insert_eq).
  pose proof (linkIssues_tracks largs w1 pi i Hp1 Hc1 Hpn eq_refl) as Hlink.
  rewrite HpK, HcK in Hlink.
  eexists _, _, _, _. split.
  - unfold createIssue, bind. rewrite Hup, Hparent.
    rewrite bool_decide_eq_false_2 by done. unfold tryCatch, bind.
    cbn [createdNumber]. fold largs. rewrite Hlink. reflexivity.
  - cbn [setIssues issues].
    rewrite lookup_insert_eq, lookup_insert_ne, lookup_insert_eq by done.
    cbn [createdNumber parentIssue linkError createdBody withParentIssue withBody
         withComment issueBody issueLabels issueComments issueTitle
         childIssueNumber parentIssueNumber largs i].
    do 8 (split; [reflexivity|]).
    split; [apply updatedChildBody_marker|].
    split; [intros Hfresh; unfold updatedChildBody; by rewrite Hfresh|].
    do 3 (split; [reflexivity|]).
    split; [apply updatedParentBody_reference|].
    apply updatedParentBody_fresh.
Qed.

Lemma createIssue_with_parent_witness :
  let args := mkCreateIssueArgs "Octo" "demo" "Fix the crash on start" (Some "It crashes.")
                None None None (Some 100) in
  let pi := mkIssue "Epic: sign-in" "Scope of the work." OPEN ["epic"] [] None [] in
  ∃ created w' ci' pi',
    createIssue args exampleWorld = (inr (CreatedIssueResult created), w') ∧
    createdNumber created = 102 ∧
    parentIssue created = Some (100, tracks) ∧ linkError created = None ∧
    createdBody created = "It crashes." ∧
    issues w' !! (createRepoKey args, 102) = Some ci' ∧
    issueLabels ci' = sentLabels args exampleRepository ∧
    issueComments ci' = ["Tracked by #" +:+ numberToString 100] ∧
    issueBody ci' = updatedChildBody 100 "Epic: sign-in" "It crashes." ∧
    includes (issueBody ci') "**Parent:**" = true ∧
    (includes "It crashes." "**Parent:**" = false →
     issueBody ci' =
       "It crashes." +:+ LF +:+ LF +:+ "---" +:+ LF +:+ "**Parent:** #" +:+
       numberToString 100 +:+ " - " +:+ "Epic: sign-in") ∧
    issues w' !! (createRepoKey args, 100) = Some pi' ∧
    issueComments pi' = issueComments pi ++ ["Tracks #" +:+ numberToString 102] ∧
    issueBody pi' = updatedParentBody 102 "Fix the crash on start" "Scope of the work." ∧
    includes (issueBody pi') ("#" +:+ numberToString 102) = true ∧
    (testTaskList "Scope of the work." = false →
     issueBody pi' =
       "### Tasks" +:+ LF +:+ childTaskItem 102 "Fix the crash on start" +:+ LF +:+ LF +:+
       "Scope of the work.").
Proof.
  apply (createIssue_with_parent
           (mkCreateIssueArgs "Octo" "demo" "Fix the crash on start" (Some "It crashes.")
              None None None (Some 100)) exampleWorld exampleRepository 100
           (mkIssue "Epic: sign-in" "Scope of the work." OPEN ["epic"] [] None [])).
  - reflexivity.
  - reflexivity.
  - discriminate.
  - discriminate.
  - reflexivity.
Defined.
End CreateMore.

(** ** Label provisioning *)

Section Labels.
Implicit Types (w : World) (args : EnsureLabelsArgs) (r : Repository)
  (existing : list string) (labels : list LabelDef) (results : list LabelReport).

Lemma withRepository_id id r w : repositories w !! id = Some r → withRepository id r w = w.
Proof. intros H. unfold withRepository. rewrite insert_id by done. by destruct w. Qed.

Lemma withLabels_id r : withLabels (repoLabels r) r = r.
Proof. by destruct r. Qed.

(** One pass of the loop: what it reports, what it adds to the repository,
    and that it adds nothing when every label is there already. *)
Lemma ensureLabelsLoop_spec id existing labels results w r :
  repositories w !! id = Some r →
  ∃ new added,
    ensureLabelsLoop id existing labels results w =
      (inr (results ++ new), withRepository id (withLabels (repoLabels r ++ added) r) w) ∧
    added `sublist_of` (labelName <$> labels) ∧
    Forall (λ name, toLowerCase name ∉ existing) added ∧
    Forall2 (λ l report,
               reportName report = labelName l ∧
               isExists report = bool_decide (toLowerCase (labelName l) ∈ existing))
            labels new ∧
    (∀ l, l ∈ labels →
          toLowerCase (labelName l) ∈ existing ∨
          toLowerCase (labelName l) ∈ toLowerCase <$> (repoLabels r ++ added)) ∧
    ((∀ l, l ∈ labels →
           toLowerCase (labelName l) ∈ existing ∨
           toLowerCase (labelName l) ∈ toLowerCase <$> repoLabels r) →
     added = [] ∧ Forall (λ report, isCreated report = false) new).
Proof.
  revert results w r. induction labels as [|l labels IH]; intros results w r Hr.
  - exists [], []. cbn [ensureLabelsLoop]. unfold ret.
    rewrite !List.app_nil_r, withLabels_id, withRepository_id by done.
    repeat split; try done. by intros l ?%elem_of_nil.
  - cbn [ensureLabelsLoop]. unfold bind.
    destruct (bool_decide (toLowerCase (labelName l) ∈ existing)) eqn:Hex; cbn [negb].
    + (* the label is on the page read before the loop *)
      unfold ret at 1. apply bool_decide_eq_true in Hex.
      destruct (IH (results ++ [LabelExists (labelName l)]) w r Hr)
        as (new & added & -> & Hsub & Hfresh & Hrep & Hcov & Hsame).
      exists (LabelExists (labelName l) :: new), added. rewrite <- List.app_assoc.
      split; [done|]. split; [by apply sublist_cons|]. split; [done|]. split; [|split].
      * constructor; [|done]. split; [done|]. simpl. by rewrite bool_decide_eq_true_2.
      * intros l' [->|?]%elem_of_cons; [by left|by apply Hcov].
      * intros Hall. destruct Hsame as [-> Hnew].
        { intros l' ?. apply Hall. by right. }
        split; [done|]. by constructor.
    + apply bool_decide_eq_false in Hex.
      unfold tryCatch, bind, createLabelMutation. rewrite Hr.
      destruct (bool_decide (toLowerCase (labelName l) ∈ toLowerCase <$> repoLabels r)) eqn:Htaken.
      * (* the service refuses the name *)
        unfold ret at 1. apply bool_decide_eq_true in Htaken.
        destruct (IH (results ++ [LabelError (labelName l)
                                    (errorMessage (GraphqlError "Name has already been taken"))])
                    w r Hr)
          as (new & added & -> & Hsub & Hfresh & Hrep & Hcov & Hsame).
        eexists (LabelError (labelName l) _ :: new), added. rewrite <- List.app_assoc.
        split; [done|]. split; [by apply sublist_cons|]. split; [done|]. split; [|split].
        -- constructor; [|done]. split; [done|]. simpl. by rewrite bool_decide_eq_false_2.
        -- intros l' [->|?]%elem_of_cons; [|by apply Hcov].
           right. rewrite fmap_app. apply elem_of_app. by left.
        -- intros Hall. destruct Hsame as [-> Hnew].
           { intros l' ?. apply Hall. by right. }
           split; [done|]. by constructor.
      * (* the label is created *)
        unfold ret at 1 2. apply bool_decide_eq_false in Htaken.
        set (r1 := mkRepository (repoLabels r ++ [labelName l]) (repoMilestones r)
                                (repoNextNumber r)).
        fold (withRepository id r1 w).
        destruct (IH (results ++ [LabelCreated (mkLabelDef (labelName l) (labelColor l)
                                                  (labelDescription l))])
                    (withRepository id r1 w) r1)
          as (new & added & -> & Hsub & Hfresh & Hrep & Hcov & Hsame).
        { unfold withRepository. cbn [repositories]. by rewrite lookup_insert_eq. }
        eexists (LabelCreated _ :: new), (labelName l :: added). rewrite <- List.app_assoc.
        split.
        { f_equal. unfold withRepository, withLabels. subst r1.
          cbn [issues repositories users subIssues nativeSubIssueFailure stderr
               repoLabels repoMilestones repoNextNumber].
          by rewrite insert_insert_eq, <- List.app_assoc. }
        split; [by apply sublist_skip|]. split; [by constructor|]. split; [|split].
        -- constructor; [|done]. split; [done|]. simpl. by rewrite bool_decide_eq_false_2.
        -- subst r1. cbn [repoLabels] in Hcov. rewrite <- List.app_assoc in Hcov.
           intros l' [->|?]%elem_of_cons; [|by apply Hcov].
           right. rewrite !fmap_app. apply elem_of_app. right. apply elem_of_cons. by left.
        -- intros Hall. exfalso. destruct (Hall l) as [?|?]; [by left|done|done].
Qed.

(** [ensureLabels] in a repository that exists. *)
Lemma ensureLabels_spec args w r :
  repositories w !! ensureKey args = Some r →
  ∃ results added,
    ensureLabels args w =
      (inr results,
       withRepository (ensureKey args) (withLabels (repoLabels r ++ added) r) w) ∧
    added `sublist_of` (labelName <$> requestedLabels args) ∧
    Forall (λ name, toLowerCase name ∉ toLowerCase <$> take 100 (repoLabels r)) added ∧
    Forall2 (λ l report,
               reportName report = labelName l ∧
               isExists report =
                 bool_decide (toLowerCase (labelName l) ∈
                              toLowerCase <$> take 100 (repoLabels r)))
            (requestedLabels args) results ∧
    (∀ l, l ∈ requestedLabels args →
          toLowerCase (labelName l) ∈ toLowerCase <$> (repoLabels r ++ added)) ∧
    ((∀ l, l ∈ requestedLabels args →
           toLowerCase (labelName l) ∈ toLowerCase <$> repoLabels r) →
     added = [] ∧ Forall (λ report, isCreated report = false) results).
Proof.
  intros Hr. unfold ensureKey in *.
  unfold ensureLabels. cbv zeta.
  rewrite (bind_pure _ _ w (Some (toLowerCase (ensureOwner args), ensureRepo args, r)))
    by (unfold queryRepository; by rewrite Hr).
  cbv beta iota.
  rewrite (bind_pure _ _ w (Some (toLowerCase (ensureOwner args), ensureRepo args, r)))
    by (unfold queryRepository; by rewrite Hr).
  cbn [fmap option_fmap option_map default snd compose].
  destruct (ensureLabelsLoop_spec
              (toLowerCase (ensureOwner args), ensureRepo args)
              (toLowerCase <$> take 100 (repoLabels r))
              (default defaultLabels (ensureLabelsList args)) [] w r Hr)
    as (new & added & Hloop & Hsub & Hfresh & Hrep & Hcov & Hsame).
  exists new, added. split; [exact Hloop|]. do 3 (split; [done|]). split.
  - intros l Hl. destruct (Hcov l Hl) as [Hin|Hin]; [|done].
    rewrite fmap_app. apply elem_of_app. left.
    rewrite <- (take_drop 100 (repoLabels r)), fmap_app. apply elem_of_app. by left.
  - intros Hall. apply Hsame. intros l Hl. right. by apply Hall.
Qed.

(** X18.  The report of [ensureLabels].  In a repository that does not
    resolve the call fails with 'Repository not found' and writes nothing.
    Otherwise it answers with one entry for each requested label, in the
    order of the request and under the name requested; a creation the service
    refuses is reported in its entry and does not fail the call.  The entry is
    'exists' exactly for the names that are, up to case, among the first
    hundred labels the repository had before the call. *)
Theorem ensureLabels_report args w :
  match repositories w !! ensureKey args with
  | None =>
      ensureLabels args w = (inl (McpError InvalidRequest "Repository not found"), w)
  | Some r =>
      ∃ results w',
        ensureLabels args w = (inr results, w') ∧
        Forall2 (λ l report,
                   reportName report = labelName l ∧
                   isExists report =
                     bool_decide (toLowerCase (labelName l) ∈
                                  toLowerCase <$> take 100 (repoLabels r)))
                (requestedLabels args) results
  end.
Proof.
  destruct (repositories w !! ensureKey args) as [r|] eqn:Hr.
  - destruct (ensureLabels_spec args w r Hr) as (results & added & H & _ & _ & Hrep & _).
    eauto.
  - unfold ensureLabels, bind, queryRepository. unfold ensureKey in Hr. by rewrite Hr.
Qed.

(** X19.  What [ensureLabels] may change.  It touches no issue, no other
    repository and nothing else in the store; in the repository it is called
    on, the labels there before stay as they are and in their order, new ones
    go behind them, and milestones and numbering are kept.  Afterwards every
    requested name is a label of the repository, up to case (the service
    refuses a name only because it is taken). *)
Theorem ensureLabels_frame args w r :
  repositories w !! ensureKey args = Some r →
  let w' := (ensureLabels args w).2 in
  issues w' = issues w ∧ users w' = users w ∧ subIssues w' = subIssues w ∧
  stderr w' = stderr w ∧
  (∀ k, k ≠ ensureKey args → repositories w' !! k = repositories w !! k) ∧
  ∃ r',
    repositories w' !! ensureKey args = Some r' ∧
    repoLabels r `prefix_of` repoLabels r' ∧
    repoMilestones r' = repoMilestones r ∧ repoNextNumber r' = repoNextNumber r ∧
    ∀ l, l ∈ requestedLabels args →
         toLowerCase (labelName l) ∈ toLowerCase <$> repoLabels r'.
Proof.
  intros Hr w'. subst w'.
  destruct (ensureLabels_spec args w r Hr)
    as (results & added & -> & _ & _ & _ & Hcov & _).
  cbn [snd withRepository issues users subIssues stderr repositories].
  do 4 (split; [done|]). split; [by intros k ?; rewrite lookup_insert_ne|].
  eexists. rewrite lookup_insert_eq. split; [done|].
  cbn [withLabels repoLabels repoMilestones repoNextNumber].
  split; [by apply prefix_app_r|]. done.
Qed.

Lemma ensureLabels_frame_witness :
  let args := mkEnsureLabelsArgs "Octo" "demo" None in
  let w' := (ensureLabels args exampleWorld).2 in
  issues w' = issues exampleWorld ∧ users w' = users exampleWorld ∧
  subIssues w' = subIssues exampleWorld ∧ stderr w' = stderr exampleWorld ∧
  (∀ k, k ≠ ensureKey args → repositories w' !! k = repositories exampleWorld !! k) ∧
  ∃ r',
    repositories w' !! ensureKey args = Some r' ∧
    repoLabels exampleRepository `prefix_of` repoLabels r' ∧
    repoMilestones r' = repoMilestones exampleRepository ∧
    repoNextNumber r' = repoNextNumber exampleRepository ∧
    ∀ l, l ∈ requestedLabels args →
         toLowerCase (labelName l) ∈ toLowerCase <$> repoLabels r'.
Proof.
  apply (ensureLabels_frame (mkEnsureLabelsArgs "Octo" "demo" None) exampleWorld
           exampleRepository).
  reflexivity.
Defined.

(** X20.  [ensureLabels] is idempotent on the store, the service keeping
    label names unique up to case: a second call with the same arguments
    creates nothing and leaves the store as the first call left it. *)
Theorem ensureLabels_twice args w r :
  repositories w !! ensureKey args = Some r →
  let w1 := (ensureLabels args w).2 in
  ∃ results,
    ensureLabels args w1 = (inr results, w1) ∧
    Forall (λ report, isCreated report = false) results.
Proof.
  intros Hr w1. subst w1.
  destruct (ensureLabels_spec args w r Hr)
    as (results & added & -> & _ & _ & _ & Hcov & _).
  cbn [snd]. set (r1 := withLabels (repoLabels r ++ added) r).
  set (w1 := withRepository (ensureKey args) r1 w).
  assert (repositories w1 !! ensureKey args = Some r1) as Hr1
    by (subst w1; unfold withRepository; cbn [repositories]; by rewrite lookup_insert_eq).
  destruct (ensureLabels_spec args w1 r1 Hr1)
    as (results' & added' & -> & _ & _ & _ & _ & Hsame).
  destruct (Hsame Hcov) as [-> Hnone].
  exists results'. by rewrite List.app_nil_r, withLabels_id, withRepository_id.
Qed.

Lemma ensureLabels_twice_witness :
  let args := mkEnsureLabelsArgs "Octo" "demo" None in
  let w1 := (ensureLabels args exampleWorld).2 in
  ∃ results,
    ensureLabels args w1 = (inr results, w1) ∧
    Forall (λ report, isCreated report = false) results.
Proof.
  apply (ensureLabels_twice (mkEnsureLabelsArgs "Octo" "demo" None) exampleWorld
           exampleRepository).
  reflexivity.
Defined.
End Labels.

(** ** The tool boundary and the token *)

Section Boundary.
#[local] Arguments append : simpl nomatch.
Implicit Types (w : World) (s t a b : string).

(** X21.  Errors at the tool boundary.  Whatever tool runs, an error that
    leaves the request handler is an [McpError]: the tool's own [McpError]
    goes through with its code and text, any other error becomes an internal
    error whose text starts with 'GitHub API error: ' and the message of the
    error.  A result goes through untouched, and what the tool wrote before
    it failed stays written. *)
Theorem atToolBoundary_errors {A} (tool : Tool A) w :
  (atToolBoundary tool w).2 = (tool w).2 ∧
  match (tool w).1 with
  | inr result => (atToolBoundary tool w).1 = inr result
  | inl (McpError code message) =>
      (atToolBoundary tool w).1 = inl (McpError code message)
  | inl (GraphqlError message) =>
      ∃ text, (atToolBoundary tool w).1 = inl (McpError InternalError text) ∧
              startsWith ("GitHub API error: " +:+ message) text = true
  end.
Proof.
  unfold atToolBoundary, tryCatch, throw.
  destruct (tool w) as [[[code message|message]|result] w']; cbn [fst snd]; [done| |done].
  split; [done|]. eexists. split; [done|].
  destruct (includes message "Bad credentials").
  - apply startsWith_app.
  - rewrite <- (append_nil_r ("GitHub API error: " +:+ message)) at 2. apply startsWith_app.
Qed.

Lemma trimStart_blank a : allChars isWhiteSpace a = true → trimStart a = "".
Proof. induction a as [|c a IH]; [done|]. simpl. by intros [-> ?]%andb_prop; auto. Qed.

Lemma trimEnd_blank b : allChars isWhiteSpace b = true → trimEnd b = "".
Proof.
  induction b as [|c b IH]; [done|]. simpl. intros [-> Hb]%andb_prop. by rewrite IH.
Qed.

Lemma trimStart_app_blank a s :
  allChars isWhiteSpace a = true → trimStart (a +:+ s) = trimStart s.
Proof. induction a as [|c a IH]; [done|]. simpl. by intros [-> ?]%andb_prop; auto. Qed.

Lemma trim_app_blank t b :
  allChars isWhiteSpace b = true → trim (t +:+ b) = trim t.
Proof.
  intros Hb. unfold trim. induction t as [|c t IH].
  - change ("" +:+ b) with b. by rewrite trimStart_blank.
  - simpl. destruct (isWhiteSpace c) eqn:Hc; [done|].
    change (String c (t +:+ b)) with (String c t +:+ b).
    by rewrite trimEnd_app, trimEnd_blank.
Qed.

(** X22.  White space around the token does not count: the header, and the
    choice between 'Bearer' and 'token', are those of the token without
    it. *)
Theorem authHeader_trims a t b :
  allChars isWhiteSpace a = true → allChars isWhiteSpace b = true →
  authHeader (a +:+ t +:+ b) = authHeader t.
Proof.
  intros Ha Hb. unfold authHeader. cbv zeta.
  assert (trim (a +:+ t +:+ b) = trim t) as ->; [|done].
  rewrite <- (trim_app_blank t b Hb). unfold trim. by rewrite trimStart_app_blank.
Qed.

Lemma authHeader_trims_witness :
  authHeader (" " +:+ "github_pat_11AB" +:+ LF) = authHeader "github_pat_11AB".
Proof. by apply authHeader_trims. Defined.

(** X23.  A token of white space only is taken for a token: the check for a
    missing token comes before the trimming, so the server starts, with the
    header 'token ' and no credentials in it. *)
Theorem startup_blank_token t :
  t ≠ "" → allChars isWhiteSpace t = true → startup (Some t) = Some "token ".
Proof.
  intros Ht Hblank. unfold startup. destruct t as [|c t]; [done|].
  unfold authHeader, trim. by rewrite trimStart_blank.
Qed.

Lemma startup_blank_token_witness : startup (Some " ") = Some "token ".
Proof. by apply startup_blank_token. Defined.
End Boundary.

(** ** Views of third issues *)

Section ViewFrame.
Implicit Types (w : World) (i : Issue) (n : N).

Lemma relatedNode_relatedFields n i i' :
  relatedFields i = relatedFields i' → relatedNode n i = relatedNode n i'.
Proof.
  unfold relatedFields, relatedNode. intros H. injection H as H1 H2 H3.
  by rewrite H1, H2, H3.
Qed.

(** The view of an issue is a function of that issue and of
    [relatedFields] of the others. *)
Lemma getIssueHierarchy_related args w w' :
  issues w !! (toLowerCase (hierarchyOwner args), hierarchyRepo args, issueNumber args) =
  issues w' !! (toLowerCase (hierarchyOwner args), hierarchyRepo args, issueNumber args) →
  (∀ k, relatedFields <$> issues w !! k = relatedFields <$> issues w' !! k) →
  (getIssueHierarchy args w).1 = (getIssueHierarchy args w').1.
Proof.
  intros Hk H.
  assert (∀ owner repo p, relatedNode p <$> issues w !! (owner, repo, p) =
                          relatedNode p <$> issues w' !! (owner, repo, p)) as Hrel.
  { intros owner repo p. specialize (H (owner, repo, p)).
    destruct (issues w !! (owner, repo, p)) as [i|],
      (issues w' !! (owner, repo, p)) as [i'|]; try done.
    change (Some (relatedFields i) = Some (relatedFields i')) in H.
    change (Some (relatedNode p i) = Some (relatedNode p i')).
    f_equal. apply relatedNode_relatedFields. congruence. }
  destruct (issues w' !! _) as [i|] eqn:Hi'.
  - rewrite (getIssueHierarchy_pure args w i Hk), (getIssueHierarchy_pure args w' i Hi').
    simpl. do 3 f_equal.
    + destruct (parentMatch (issueBody i)); [|done]. by rewrite Hrel.
    + f_equal. apply list_omap_ext, Forall2_same_length_lookup. split; [done|].
      intros k a b Ha Hb. assert (a = b) as -> by congruence. apply Hrel.
  - by rewrite (getIssueHierarchy_missing args w Hk), (getIssueHierarchy_missing args w' Hi').
Qed.

Lemma addComment_other id body w k :
  k ≠ id → issues (addComment id body w).2 !! k = issues w !! k.
Proof.
  intros Hk. unfold addComment. destruct (issues w !! id); [|done].
  cbn [snd setIssues issues]. by rewrite lookup_insert_ne.
Qed.

Lemma addComment_related id body w k :
  relatedFields <$> issues (addComment id body w).2 !! k = relatedFields <$> issues w !! k.
Proof.
  unfold addComment. destruct (issues w !! id) as [i|] eqn:Hi; [|done].
  cbn [snd setIssues issues]. destruct (decide (k = id)) as [->|Hk].
  - by rewrite lookup_insert_eq, Hi.
  - by rewrite lookup_insert_ne.
Qed.

(** X24.  A link changes the views of the two issues it links and no other:
    the view of any third issue, which may list one of the two as its parent
    or among its children, is the same after the call as before it. *)
Theorem link_views_frame args w owner repo n :
  (toLowerCase owner, repo, n) ≠ parentKey args →
  (toLowerCase owner, repo, n) ≠ childKey args →
  hierarchyOf owner repo n (linkIssues args w).2 = hierarchyOf owner repo n w.
Proof.
  intros Hnp Hnc.
  destruct (issues w !! parentKey args) as [pi|] eqn:Hp;
    [|by rewrite linkIssues_parent_missing].
  destruct (issues w !! childKey args) as [ci|] eqn:Hc;
    [|by rewrite linkIssues_child_missing].
  unfold hierarchyOf.
  assert (default tracks (linkType args) = tracks ∨ default tracks (linkType args) ≠ tracks)
    as [Ht|Ht] by (destruct (default tracks (linkType args)); [by left|by right|by right]).
  - destruct (decide (childIssueNumber args = parentIssueNumber args)) as [Heq|Hne].
    + rewrite (linkIssues_same_issue args w pi Hp Heq Ht). cbn [snd].
      erewrite getIssueHierarchy_related; [done| |].
      * cbn [setIssues issues hierarchyOwner hierarchyRepo issueNumber].
        by rewrite lookup_insert_ne.
      * intros k. cbn [setIssues issues]. destruct (decide (k = parentKey args)) as [->|Hk].
        -- by rewrite lookup_insert_eq, Hp.
        -- by rewrite lookup_insert_ne.
    + rewrite (linkIssues_tracks args w pi ci Hp Hc (not_eq_sym Hne) Ht). cbn [snd].
      assert (parentKey args ≠ childKey args) as Hkeys
        by (unfold parentKey, childKey; congruence).
      erewrite getIssueHierarchy_related; [done| |].
      * cbn [setIssues issues hierarchyOwner hierarchyRepo issueNumber].
        by rewrite !lookup_insert_ne.
      * intros k. cbn [setIssues issues].
        destruct (decide (k = parentKey args)) as [->|Hk1].
        { by rewrite lookup_insert_eq, Hp. }
        rewrite lookup_insert_ne by done.
        destruct (decide (k = childKey args)) as [->|Hk2].
        { by rewrite lookup_insert_eq, Hc. }
        by rewrite lookup_insert_ne.
  - rewrite (linkIssues_untracked args w pi ci Hp Hc Ht). cbn [snd].
    erewrite getIssueHierarchy_related; [done| |].
    + cbn [hierarchyOwner hierarchyRepo issueNumber]. by rewrite !addComment_other.
    + intros k. by rewrite !addComment_related.
Qed.

Lemma link_views_frame_witness :
  let args := mkLinkArgs "octo" "demo" 101 99 None in
  (linkIssues args exampleWorldThree).1 =
    inr (LinkResult true (mkIssueRef 101 "Fix login redirect")
           (mkIssueRef 99 "Write the guide") tracks) ∧
  (∃ h, hierarchyOf "Octo" "demo" 100 exampleWorldThree = Some h ∧
        101 ∈ nodeNumber <$> children h) ∧
  hierarchyOf "Octo" "demo" 100 (linkIssues args exampleWorldThree).2 =
  hierarchyOf "Octo" "demo" 100 exampleWorldThree.
Proof.
  cbv zeta. split; [reflexivity|]. split.
  - eexists. split; [reflexivity|]. by apply (bool_decide_unpack _).
  - apply link_views_frame; discriminate.
Defined.

End ViewFrame.

(** ** Label names across the tools *)

Section LabelNames.
Implicit Types (w : World) (r : Repository) (t : IssueType).

Lemma typeName_lower t : toLowerCase (typeName t) = typeName t.
Proof. by destruct t. Qed.

Lemma defaultLabels_names : labelName <$> defaultLabels = typeName <$> testOrder.
Proof. reflexivity. Qed.

Lemma typeName_default t : typeName t ∈ labelName <$> defaultLabels.
Proof. rewrite defaultLabels_names. apply list_elem_of_fmap_2. destruct t; set_solver. Qed.

Lemma typeName_autoLabels t (labels : list string) : typeName t ∈ autoLabelsOf labels (Some t).
Proof.
  unfold autoLabelsOf. case_bool_decide; [done|]. apply elem_of_app. right. by constructor.
Qed.

(** X25.  [ensureLabels] and [createIssue] together.  Take a repository with
    room for six more labels among its first hundred, none of whose labels
    is a type name in another case.  After [ensureLabels] with the default
    labels, every issue that [createIssue] classifies gets the label of its
    type: the automatic label is not dropped any more. *)
Theorem ensureLabels_then_createIssue eargs w r :
  repositories w !! ensureKey eargs = Some r →
  ensureLabelsList eargs = None →
  (length (repoLabels r) + 6 ≤ 100)%nat →
  (∀ name t, name ∈ repoLabels r → toLowerCase name = typeName t → name = typeName t) →
  ∃ r',
    repositories (ensureLabels eargs w).2 !! ensureKey eargs = Some r' ∧
    ∀ cargs t,
      detectIssueType (createTitle cargs) (createBody cargs) = Some t →
      typeName t ∈ sentLabels cargs r'.
Proof.
  intros Hr Hdefault Hroom Hcase.
  destruct (ensureLabels_spec eargs w r Hr)
    as (results & added & -> & Hsub & _ & _ & Hcov & _).
  unfold requestedLabels in *. rewrite Hdefault in *. cbn [default] in *.
  eexists. cbn [snd withRepository repositories]. rewrite lookup_insert_eq.
  split; [done|]. intros cargs t Hdet.
  unfold sentLabels. rewrite Hdet. apply list_elem_of_filter.
  split; [|apply typeName_autoLabels].
  cbn [withLabels repoLabels].
  rewrite take_ge by (rewrite length_app; apply sublist_length in Hsub;
                      rewrite length_fmap in Hsub; simpl in Hsub; lia).
  destruct (list_elem_of_fmap_1 _ _ _ (typeName_default t)) as (l & Hname & Hl).
  specialize (Hcov l Hl). rewrite <- Hname, typeName_lower in Hcov.
  apply list_elem_of_fmap_1 in Hcov as (name & Hlow & [Hin|Hin]%elem_of_app).
  - rewrite (Hcase name t Hin) in Hin by done. apply elem_of_app. by left.
  - apply elem_of_app. right.
    pose proof (elem_of_sublist _ _ _ Hin Hsub) as Hdef.
    rewrite defaultLabels_names in Hdef.
    apply list_elem_of_fmap_1 in Hdef as (t' & -> & _).
    rewrite typeName_lower in Hlow. by rewrite Hlow.
Qed.

Lemma ensureLabels_then_createIssue_witness :
  ∃ r',
    repositories (ensureLabels (mkEnsureLabelsArgs "Octo" "demo" None) exampleWorld).2
      !! ensureKey (mkEnsureLabelsArgs "Octo" "demo" None) = Some r' ∧
    ∀ cargs t,
      detectIssueType (createTitle cargs) (createBody cargs) = Some t →
      typeName t ∈ sentLabels cargs r'.
Proof.
  apply (ensureLabels_then_createIssue (mkEnsureLabelsArgs "Octo" "demo" None) exampleWorld
           exampleRepository).
  - reflexivity.
  - reflexivity.
  - simpl. lia.
  - intros name t Hin Hlow. simpl in Hin.
    repeat (apply elem_of_cons in Hin as [->|Hin]; [by destruct t|]).
    by apply elem_of_nil in Hin.
Defined.

(** X26.  The two tools compare label names differently.  [ensureLabels]
    takes a label for present when the repository has its name in any case,
    [createIssue] looks the name up letter for letter.  So in a repository
    that has, say, 'Bug' but not 'bug', [ensureLabels] with the default labels
    reports 'bug' as existing and creates nothing for it, and [createIssue]
    goes on dropping the automatic label 'bug' for every issue. *)
Theorem ensureLabels_case_mismatch eargs w r name t :
  repositories w !! ensureKey eargs = Some r →
  ensureLabelsList eargs = None →
  name ∈ take 100 (repoLabels r) → toLowerCase name = typeName t →
  typeName t ∉ repoLabels r →
  ∃ results w' r',
    ensureLabels eargs w = (inr results, w') ∧
    LabelExists (typeName t) ∈ results ∧
    repositories w' !! ensureKey eargs = Some r' ∧
    ∀ cargs, typeName t ∉ sentLabels cargs r'.
Proof.
  intros Hr Hdefault Hname Hlow Hnot.
  destruct (ensureLabels_spec eargs w r Hr)
    as (results & added & -> & _ & Hfresh & Hrep & _ & _).
  unfold requestedLabels in *. rewrite Hdefault in *. cbn [default] in *.
  assert (typeName t ∈ toLowerCase <$> take 100 (repoLabels r)) as Hpage
    by (rewrite <- Hlow; by apply list_elem_of_fmap_2).
  eexists _, _, _. split; [done|]. split; [|split].
  - destruct (list_elem_of_fmap_1 _ _ _ (typeName_default t)) as (l & Hl & Hin).
    apply list_elem_of_lookup_1 in Hin as [i Hi].
    destruct (Forall2_lookup_l _ _ _ _ _ Hrep Hi) as (report & Hreport & Hn & Hex).
    rewrite <- Hl, typeName_lower, bool_decide_eq_true_2 in Hex by done.
    apply list_elem_of_lookup_2 in Hreport.
    destruct report; try done. simpl in Hn. by rewrite Hl, <- Hn.
  - cbn [withRepository repositories]. by rewrite lookup_insert_eq.
  - intros cargs [Hin _]%list_elem_of_filter.
    cbn [withLabels repoLabels] in Hin. apply subseteq_take in Hin. apply elem_of_app in Hin as [Hin|Hin]; [done|].
    rewrite Forall_forall in Hfresh. apply (Hfresh _ Hin). by rewrite typeName_lower.
Qed.

Lemma ensureLabels_case_mismatch_witness :
  ∃ results w' r',
    ensureLabels (mkEnsureLabelsArgs "Octo" "demo" None) exampleWorldCapitals =
      (inr results, w') ∧
    LabelExists (typeName bug) ∈ results ∧
    repositories w' !! ensureKey (mkEnsureLabelsArgs "Octo" "demo" None) = Some r' ∧
    ∀ cargs, typeName bug ∉ sentLabels cargs r'.
Proof.
  apply (ensureLabels_case_mismatch (mkEnsureLabelsArgs "Octo" "demo" None)
           exampleWorldCapitals (mkRepository ["Epic"; "Bug"] [1] 102) "Bug" bug).
  - reflexivity.
  - reflexivity.
  - by apply (bool_decide_unpack _).
  - reflexivity.
  - by apply (bool_decide_unpack _).
Defined.
End LabelNames.

(** ** The owner's name *)

Section OwnerCase.
Implicit Types (owner repo : string).

(** X27.  The owner is read without regard to case by every tool: two calls
    that differ only in the case of the owner's name do the same to the same
    store and answer the same. *)
Theorem tools_owner_case owner owner' repo :
  toLowerCase owner = toLowerCase owner' →
  (∀ p c lt, linkIssues (mkLinkArgs owner repo p c lt) =
             linkIssues (mkLinkArgs owner' repo p c lt)) ∧
  (∀ n p, setParent (mkSetParentArgs owner repo n p) =
          setParent (mkSetParentArgs owner' repo n p)) ∧
  (∀ p c, addSubIssue (mkSubIssueArgs owner repo p c) =
          addSubIssue (mkSubIssueArgs owner' repo p c)) ∧
  (∀ n, getIssueHierarchy (mkHierarchyArgs owner repo n) =
        getIssueHierarchy (mkHierarchyArgs owner' repo n)) ∧
  (∀ title body labels assignees milestone parent,
     createIssue (mkCreateIssueArgs owner repo title body labels assignees milestone parent) =
     createIssue (mkCreateIssueArgs owner' repo title body labels assignees milestone parent)) ∧
  (∀ labels, ensureLabels (mkEnsureLabelsArgs owner repo labels) =
             ensureLabels (mkEnsureLabelsArgs owner' repo labels)).
Proof.
  intros H. repeat split; intros.
  - unfold linkIssues. simpl. by rewrite H.
  - unfold setParent. simpl. by rewrite H.
  - unfold addSubIssue. simpl. by rewrite H.
  - unfold getIssueHierarchy. simpl. by rewrite H.
  - unfold createIssue, createIssueUpstream. simpl. by rewrite H.
  - unfold ensureLabels. simpl. by rewrite H.
Qed.

Lemma tools_owner_case_witness :
  (∀ p c lt, linkIssues (mkLinkArgs "Octo" "demo" p c lt) =
             linkIssues (mkLinkArgs "OCTO" "demo" p c lt)) ∧
  (∀ n p, setParent (mkSetParentArgs "Octo" "demo" n p) =
          setParent (mkSetParentArgs "OCTO" "demo" n p)) ∧
  (∀ p c, addSubIssue (mkSubIssueArgs "Octo" "demo" p c) =
          addSubIssue (mkSubIssueArgs "OCTO" "demo" p c)) ∧
  (∀ n, getIssueHierarchy (mkHierarchyArgs "Octo" "demo" n) =
        getIssueHierarchy (mkHierarchyArgs "OCTO" "demo" n)) ∧
  (∀ title body labels assignees milestone parent,
     createIssue (mkCreateIssueArgs "Octo" "demo" title body labels assignees milestone parent) =
     createIssue (mkCreateIssueArgs "OCTO" "demo" title body labels assignees milestone parent)) ∧
  (∀ labels, ensureLabels (mkEnsureLabelsArgs "Octo" "demo" labels) =
             ensureLabels (mkEnsureLabelsArgs "OCTO" "demo" labels)).
Proof. apply tools_owner_case. reflexivity. Defined.
End OwnerCase.
